(** * JSON Tree Visualizer: tree construction, layered layout and path search

    A shallow embedding of [src/components/JSONTreeVisualizer.tsx]:
    [createTree]/[traverse] (the tree builder), [layoutNodes]/[findLevel]
    (the layered layout), and the handlers [handleVisualize],
    [handleSearch] and [handleClear] of the component, followed by the
    properties the specification states about them.

    Modelling conventions.
    - A JavaScript string is the list of its UTF-16 code units ([jsstring]).
    - A parsed JSON value is [JsonValue]; an object is the list of its
      entries in the order [Object.entries] enumerates them.
    - The mutable locals of [createTree] ([nodeId], [nodeList], [edgeList])
      and of [layoutNodes] ([levels], [visited]) are threaded explicitly.
    - Coordinates are rationals: the source computes them in doubles from
      array indices and lengths, where the arithmetic involved is exact.
    - [JSON.parse] is a built-in, taken as a parameter of
      [handleVisualize]; so is the exception that a bounded call stack
      raises inside its [try] block while the tree is built and laid out.
    - The recursion of [findLevel] is bounded by a fuel argument;
      [findLevel_enough_fuel] shows that the fuel [layoutNodes] passes is
      never used up. *)

From Stdlib Require Import String Ascii DecimalString DecimalNat.
From Stdlib Require Import List Bool Arith NArith ZArith QArith Lia.
From Stdlib Require Import Permutation.
From Stdlib Require Import Floats.PrimFloat.
Import ListNotations.
Close Scope Q_scope.
Set Warnings "-register-all".

(* ================================================================== *)
(** ** JavaScript strings *)

Abbreviation jsstring := (list N) (only parsing).

(** A string literal of the source, as code units. *)
Definition str (s : string) : jsstring :=
  map N_of_ascii (list_ascii_of_string s).

(** [a === b] on strings. *)
Fixpoint str_eqb (a b : jsstring) : bool :=
  match a, b with
  | [], [] => true
  | x :: a', y :: b' => N.eqb x y && str_eqb a' b'
  | _, _ => false
  end.

(** [s.startsWith(prefix)]. *)
Fixpoint startsWith (s prefix : jsstring) {struct prefix} : bool :=
  match prefix, s with
  | [], _ => true
  | p :: prefix', c :: s' => N.eqb c p && startsWith s' prefix'
  | _ :: _, [] => false
  end.

(** The code units [String.prototype.trim] strips: ECMAScript WhiteSpace
    (TAB, VT, FF, SP, NBSP, ZWNBSP and the Unicode space separators)
    and LineTerminator (LF, CR, LS, PS). *)
Definition isWhiteSpace (c : N) : bool :=
  ((9 <=? c) && (c <=? 13) || (c =? 32) || (c =? 160) || (c =? 5760)
   || (8192 <=? c) && (c <=? 8202) || (c =? 8232) || (c =? 8233)
   || (c =? 8239) || (c =? 8287) || (c =? 12288) || (c =? 65279))%N.

Fixpoint trimStart (s : jsstring) : jsstring :=
  match s with
  | c :: s' => if isWhiteSpace c then trimStart s' else s
  | [] => []
  end.

Definition trimEnd (s : jsstring) : jsstring := rev (trimStart (rev s)).

Definition trim (s : jsstring) : jsstring := trimEnd (trimStart s).

(** [`${n}`] for an array index or the node counter: decimal digits. *)
Definition showNat (n : nat) : jsstring :=
  str (NilEmpty.string_of_uint (Nat.to_uint n)).

(* ================================================================== *)
(** ** Data model *)

(** The result of [JSON.parse]. *)
Inductive JsonValue : Type :=
| JNull
| JBool (b : bool)
| JNumber (n : float)
| JString (s : jsstring)
| JArray (items : list JsonValue)
| JObject (entries : list (jsstring * JsonValue)).

(** [NodeData["type"]]. *)
Inductive NodeKind : Type := object | array | primitive.

Definition NodeKind_eqb (a b : NodeKind) : bool :=
  match a, b with
  | object, object | array, array | primitive, primitive => true
  | _, _ => false
  end.

Record NodeData : Type := mkNodeData {
  label : jsstring;
  value : option JsonValue;   (* [None] is [undefined] *)
  type : NodeKind;
  path : jsstring;
  isDark : bool;
  isHighlighted : bool
}.

Record XYPosition : Type := mkPos { x : Q; y : Q }.

(** [RFNode<NodeData>]; the constant fields [type: "custom"],
    [sourcePosition] and [targetPosition] are left out. *)
Record RFNode : Type := mkNode {
  id : jsstring;
  data : NodeData;
  position : XYPosition
}.

Record RFEdge : Type := mkEdge {
  edge_id : jsstring;
  source : jsstring;
  target : jsstring
}.

(* ================================================================== *)
(** ** TreeBuilder: [createTree] *)

(** The locals [nodeId], [nodeList], [edgeList] of [createTree]. *)
Record BuildState : Type := mkBuild {
  nodeId : nat;
  nodeList : list RFNode;
  edgeList : list RFEdge
}.

Definition nodeTypeOf (v : JsonValue) : NodeKind :=
  match v with
  | JArray _ => array
  | JObject _ => object
  | _ => primitive
  end.

Definition nodeIdStr (n : nat) : jsstring := str "node-" ++ showNat n.

Definition newNode (dark : bool) (n : nat) (v : JsonValue)
    (lbl currentPath : jsstring) : RFNode :=
  {| id := nodeIdStr n;
     data := {| label := lbl;
                value := if NodeKind_eqb (nodeTypeOf v) primitive
                         then Some v else None;
                type := nodeTypeOf v;
                path := currentPath;
                isDark := dark;
                isHighlighted := false |};
     position := {| x := 0; y := 0 |} |}.

Definition newEdge (parent child : jsstring) : RFEdge :=
  {| edge_id := str "edge-" ++ parent ++ str "-" ++ child;
     source := parent;
     target := child |}.

(** The effect of one visit before the recursion: allocate the id,
    push the node, push the edge when [parent] is truthy. *)
Definition visit (dark : bool) (v : JsonValue) (parent : option jsstring)
    (lbl currentPath : jsstring) (st : BuildState) : BuildState :=
  let id := nodeIdStr (nodeId st) in
  {| nodeId := S (nodeId st);
     nodeList := nodeList st ++ [newNode dark (nodeId st) v lbl currentPath];
     edgeList := match parent with
                 | Some ((_ :: _) as p) => edgeList st ++ [newEdge p id]
                 | _ => edgeList st   (* [null] and the empty string are falsy *)
                 end |}.

Definition keyPath (currentPath k : jsstring) : jsstring :=
  currentPath ++ str "." ++ k.

Definition indexLabel (idx : nat) : jsstring :=
  str "[" ++ showNat idx ++ str "]".

Definition indexPath (currentPath : jsstring) (idx : nat) : jsstring :=
  currentPath ++ str "[" ++ showNat idx ++ str "]".

Fixpoint traverse (dark : bool) (v : JsonValue) (parent : option jsstring)
    (lbl currentPath : jsstring) (st : BuildState) {struct v} : BuildState :=
  let id := nodeIdStr (nodeId st) in
  let st1 := visit dark v parent lbl currentPath st in
  match v with
  | JObject entries =>
      (fix forEach (es : list (jsstring * JsonValue)) (s : BuildState) :=
         match es with
         | [] => s
         | (k, c) :: rest =>
             forEach rest
               (traverse dark c (Some id) k (keyPath currentPath k) s)
         end) entries st1
  | JArray items =>
      (fix forEach (l : list JsonValue) (idx : nat) (s : BuildState) :=
         match l with
         | [] => s
         | item :: rest =>
             forEach rest (S idx)
               (traverse dark item (Some id) (indexLabel idx)
                  (indexPath currentPath idx) s)
         end) items 0 st1
  | _ => st1
  end.

Definition createTree (dark : bool) (obj : JsonValue)
    (parentId : option jsstring) (key path0 : jsstring)
    : list RFNode * list RFEdge :=
  let st := traverse dark obj parentId key path0
              {| nodeId := 0; nodeList := []; edgeList := [] |} in
  (nodeList st, edgeList st).

(** [createTree(parsed)]: the defaults [parentId = null], [key = "root"],
    [path = "$"]. *)
Definition createTree_default (dark : bool) (obj : JsonValue) :=
  createTree dark obj None (str "root") (str "$").

(* ================================================================== *)
(** ** LayeredLayout: [layoutNodes] *)

(** [levels : Record<number, string[]>] as an association list kept in
    ascending key order, the order in which [Object.entries] enumerates
    integer keys; [visited : Set<string>] as the list of its members in
    insertion order. *)
Record LayoutState : Type := mkLayout {
  levels : list (nat * list jsstring);
  visited : list jsstring
}.

Definition has (visited : list jsstring) (nodeId : jsstring) : bool :=
  existsb (str_eqb nodeId) visited.

(** [if (!levels[level]) levels[level] = []; levels[level].push(nodeId)]. *)
Fixpoint levels_push (level : nat) (nodeId : jsstring)
    (lv : list (nat * list jsstring)) : list (nat * list jsstring) :=
  match lv with
  | [] => [(level, [nodeId])]
  | (l, ids) :: rest =>
      if level =? l then (l, ids ++ [nodeId]) :: rest
      else if level <? l then (level, [nodeId]) :: lv
      else (l, ids) :: levels_push level nodeId rest
  end.

(** [forEach] with a callback that may run out of fuel. *)
Fixpoint forEachM {A S : Type} (f : A -> S -> option S) (l : list A) (s : S)
    : option S :=
  match l with
  | [] => Some s
  | a :: rest =>
      match f a s with
      | Some s' => forEachM f rest s'
      | None => None
      end
  end.

(** [findLevel]; [fuel] bounds the depth of the recursion, [None] means
    the bound was hit. *)
Fixpoint findLevel (fuel : nat) (edges : list RFEdge) (nodeId : jsstring)
    (level : nat) (st : LayoutState) : option LayoutState :=
  match fuel with
  | 0 => None
  | S fuel' =>
      if has (visited st) nodeId then Some st
      else
        let st1 := {| levels := levels_push level nodeId (levels st);
                      visited := visited st ++ [nodeId] |} in
        forEachM
          (fun edge s =>
             if str_eqb (source edge) nodeId
             then findLevel fuel' edges (target edge) (S level) s
             else Some s)
          edges st1
  end.

(** [edges.some((e) => e.target === n.id)]. *)
Definition hasIncoming (edges : list RFEdge) (n : RFNode) : bool :=
  existsb (fun e => str_eqb (target e) (id n)) edges.

(** [nodes.find((n) => !edges.some((e) => e.target === n.id))]. *)
Definition rootNode (nodes : list RFNode) (edges : list RFEdge)
    : option RFNode :=
  find (fun n => negb (hasIncoming edges n)) nodes.

(** [const node = nodes.find((n) => n.id === nodeId);
     if (node) node.position = p]. *)
Fixpoint setPosition (nodes : list RFNode) (nodeId : jsstring)
    (p : XYPosition) : list RFNode :=
  match nodes with
  | [] => []
  | n :: rest =>
      if str_eqb (id n) nodeId
      then {| id := id n; data := data n; position := p |} :: rest
      else n :: setPosition rest nodeId p
  end.

Definition natQ (n : nat) : Q := inject_Z (Z.of_nat n).

(** [{ x: (index - nodeIds.length / 2) * 200, y: levelNum * 150 }]. *)
Definition levelPosition (index len levelNum : nat) : XYPosition :=
  {| x := ((natQ index - natQ len / 2) * 200)%Q;
     y := (natQ levelNum * 150)%Q |}.

(** [nodeIds.forEach((nodeId, index) => ...)] for one level. *)
Fixpoint placeLevel (levelNum len : nat) (nodeIds : list jsstring)
    (index : nat) (nodes : list RFNode) : list RFNode :=
  match nodeIds with
  | [] => nodes
  | nodeId :: rest =>
      placeLevel levelNum len rest (S index)
        (setPosition nodes nodeId (levelPosition index len levelNum))
  end.

(** [Object.entries(levels).forEach(([level, nodeIds]) => ...)]. *)
Definition placeLevels (lv : list (nat * list jsstring))
    (nodes : list RFNode) : list RFNode :=
  fold_left
    (fun ns '(levelNum, nodeIds) =>
       placeLevel levelNum (length nodeIds) nodeIds 0 ns)
    lv nodes.

Definition emptyLayout : LayoutState := {| levels := []; visited := [] |}.

(** The recursion of [findLevel] is never deeper than the number of
    edges plus two, see [findLevel_enough_fuel]. *)
Definition layoutFuel (edges : list RFEdge) : nat := length edges + 2.

(** The levels [layoutNodes] computes before it assigns positions. *)
Definition computeLevels (nodes : list RFNode) (edges : list RFEdge)
    : option LayoutState :=
  match rootNode nodes edges with
  | Some r => findLevel (layoutFuel edges) edges (id r) 0 emptyLayout
  | None => Some emptyLayout
  end.

Definition layoutNodes (nodes : list RFNode) (edges : list RFEdge)
    : list RFNode :=
  match computeLevels nodes edges with
  | Some st => placeLevels (levels st) nodes
  | None => nodes   (* not reached: [computeLevels_total] *)
  end.

(* ================================================================== *)
(** ** InteractionController: the component state and its handlers *)

(** The part of the React Flow instance the component uses. *)
Record RFInstance : Type := mkRF {
  getNode : jsstring -> option RFNode
}.

(** [rfInstance.setCenter(x, y, { zoom, duration })], a command issued
    to the rendering library. *)
Record SetCenter : Type := mkCenter {
  center_x : Q;
  center_y : Q;
  zoom : Q;
  duration : nat
}.

(** The [useState] cells of [JSONTreeVisualizer]. *)
Record AppState : Type := mkApp {
  st_jsonInput : jsstring;
  st_searchPath : jsstring;
  st_nodes : list RFNode;
  st_edges : list RFEdge;
  st_error : jsstring;
  st_searchResult : jsstring;
  st_isDark : bool;
  st_rfInstance : option RFInstance
}.

Definition setHighlighted (h : bool) (n : RFNode) : RFNode :=
  {| id := id n;
     data := {| label := label (data n); value := value (data n);
                type := type (data n); path := path (data n);
                isDark := isDark (data n); isHighlighted := h |};
     position := position n |}.

(** [searchPath.trim().startsWith("$") ? searchPath.trim()
                                       : `$.${searchPath.trim()}`]. *)
Definition normalizedPath (searchPath : jsstring) : jsstring :=
  if startsWith (trim searchPath) (str "$")
  then trim searchPath
  else str "$." ++ trim searchPath.

(** [nodes.find((n) => n.data.path === normalizedPath)]. *)
Definition matchedNode (nodes : list RFNode) (searchPath : jsstring)
    : option RFNode :=
  find (fun n => str_eqb (path (data n)) (normalizedPath searchPath)) nodes.

Definition isEmpty (s : jsstring) : bool :=
  match s with [] => true | _ => false end.

Definition handleSearch (st : AppState) : AppState * option SetCenter :=
  let withNodes (ns : list RFNode) (result : jsstring) : AppState :=
    {| st_jsonInput := st_jsonInput st; st_searchPath := st_searchPath st;
       st_nodes := ns; st_edges := st_edges st; st_error := st_error st;
       st_searchResult := result; st_isDark := st_isDark st;
       st_rfInstance := st_rfInstance st |} in
  if isEmpty (trim (st_searchPath st)) then
    (withNodes (map (setHighlighted false) (st_nodes st)) [], None)
  else
    match matchedNode (st_nodes st) (st_searchPath st) with
    | Some m =>
        (withNodes
           (map (fun n => setHighlighted (str_eqb (id n) (id m)) n)
                (st_nodes st))
           (str "Match found!"),
         match st_rfInstance st with
         | Some rf =>
             match getNode rf (id m) with
             | Some latest =>
                 Some {| center_x := x (position latest);
                         center_y := y (position latest);
                         zoom := 3 # 2; duration := 800 |}
             | None => None
             end
         | None => None
         end)
    | None =>
        (withNodes (map (setHighlighted false) (st_nodes st))
           (str "No match found"), None)
    end.

Definition handleClear (st : AppState) : AppState :=
  {| st_jsonInput := []; st_searchPath := [];
     st_nodes := []; st_edges := []; st_error := [];
     st_searchResult := []; st_isDark := st_isDark st;
     st_rfInstance := st_rfInstance st |}.

Section Visualize.

(** [JSON.parse]: the parsed value, or the message of the exception it
    throws. *)
Variable JSON_parse : jsstring -> JsonValue + jsstring.

(** The [try] block of [handleVisualize] also encloses the calls of
    [createTree] and [layoutNodes].  Both recurse once for every level
    of nesting, and an engine whose call stack is bounded ends either of
    them with a [RangeError] on a value nested too deeply.  [buildThrows]
    gives the message of the exception raised while the two run on a
    parsed value, [None] when both return. *)
Variable buildThrows : JsonValue -> option jsstring.

Definition handleVisualize (st : AppState) : AppState :=
  match JSON_parse (st_jsonInput st) with
  | inl parsed =>
      (* [setError] and [setSearchResult] have run with the empty
         string when [createTree] is called. *)
      match buildThrows parsed with
      | None =>
          let '(newNodes, newEdges) :=
            createTree_default (st_isDark st) parsed in
          let layoutedNodes := layoutNodes newNodes newEdges in
          {| st_jsonInput := st_jsonInput st;
             st_searchPath := st_searchPath st;
             st_nodes := layoutedNodes; st_edges := newEdges;
             st_error := []; st_searchResult := [];
             st_isDark := st_isDark st; st_rfInstance := st_rfInstance st |}
      | Some message =>
          (* the [catch] clause, entered after the two resets *)
          {| st_jsonInput := st_jsonInput st;
             st_searchPath := st_searchPath st;
             st_nodes := []; st_edges := [];
             st_error := str "Invalid JSON: " ++ message;
             st_searchResult := [];
             st_isDark := st_isDark st; st_rfInstance := st_rfInstance st |}
      end
  | inr message =>
      (* the [catch] clause, entered from [JSON.parse] *)
      {| st_jsonInput := st_jsonInput st; st_searchPath := st_searchPath st;
         st_nodes := []; st_edges := [];
         st_error := str "Invalid JSON: " ++ message;
         st_searchResult := st_searchResult st;
         st_isDark := st_isDark st; st_rfInstance := st_rfInstance st |}
  end.

End Visualize.

(* ================================================================== *)
(** ** Rendering: node colours and the status banners *)

(** The full union [NodeKind] of the source: the three kinds a node can
    have, and ["highlighted"], which only selects a colour. *)
Inductive ColorKey : Type :=
| kindKey (k : NodeKind)
| highlighted.

(** The table [colors] of [getNodeColor]. *)
Definition colors (isDark : bool) (key : ColorKey) : jsstring :=
  match key with
  | kindKey object => if isDark then str "#8b5cf6" else str "#a78bfa"
  | kindKey array => if isDark then str "#10b981" else str "#34d399"
  | kindKey primitive => if isDark then str "#f59e0b" else str "#fbbf24"
  | highlighted => str "#ef4444"
  end.

(** [a || b] on strings: the empty string is falsy. *)
Definition orElse (a b : jsstring) : jsstring :=
  match a with
  | [] => b
  | _ :: _ => a
  end.

(** [colors[type] || colors.primitive]. *)
Definition getNodeColor (type : ColorKey) (isDark : bool) : jsstring :=
  orElse (colors isDark type) (colors isDark (kindKey primitive)).

(** [bgColor] of [CustomNode]. *)
Definition customNodeBackground (d : NodeData) : jsstring :=
  if isHighlighted d
  then getNodeColor highlighted (isDark d)
  else getNodeColor (kindKey (type d)) (isDark d).

(** [transform] of [CustomNode]. *)
Definition customNodeTransform (d : NodeData) : jsstring :=
  if isHighlighted d then str "scale(1.1)" else str "scale(1)".

(** [s.includes(sub)]. *)
Fixpoint includes (s sub : jsstring) : bool :=
  startsWith s sub
  || match s with
     | [] => false
     | _ :: s' => includes s' sub
     end.

(** The banner under the search field: absent when [searchResult] is
    empty, otherwise in the success style exactly when the text
    includes ["found!"]. *)
Definition searchBanner (st : AppState) : option bool :=
  if isEmpty (st_searchResult st) then None
  else Some (includes (st_searchResult st) (str "found!")).

(** [{error && (...)}]: the error banner, shown when [error] is not
    empty. *)
Definition errorBanner (st : AppState) : option jsstring :=
  if isEmpty (st_error st) then None else Some (st_error st).

(** [nodes.length > 0]: the graph is rendered, rather than the text
    "No tree to display". *)
Definition showsTree (st : AppState) : bool := 0 <? length (st_nodes st).

(* ================================================================== *)
(** ** Theme toggle and node click *)

(** The effect on [isDark]: [if (nodes.length > 0) setNodes(nodes.map(
    (n) => ({ ...n, data: { ...n.data, isDark } })))]. *)
Definition themeEffect (st : AppState) : AppState :=
  if 0 <? length (st_nodes st)
  then {| st_jsonInput := st_jsonInput st; st_searchPath := st_searchPath st;
          st_nodes :=
            map (fun n =>
                   {| id := id n;
                      data := {| label := label (data n);
                                 value := value (data n);
                                 type := type (data n);
                                 path := path (data n);
                                 isDark := st_isDark st;
                                 isHighlighted := isHighlighted (data n) |};
                      position := position n |})
                (st_nodes st);
          st_edges := st_edges st; st_error := st_error st;
          st_searchResult := st_searchResult st;
          st_isDark := st_isDark st; st_rfInstance := st_rfInstance st |}
  else st.

(** The theme button: [setIsDark(!isDark)], after which the effect
    runs with the new flag. *)
Definition toggleTheme (st : AppState) : AppState :=
  themeEffect
    {| st_jsonInput := st_jsonInput st; st_searchPath := st_searchPath st;
       st_nodes := st_nodes st; st_edges := st_edges st;
       st_error := st_error st; st_searchResult := st_searchResult st;
       st_isDark := negb (st_isDark st);
       st_rfInstance := st_rfInstance st |}.

(** [onNodeClick]: the new state and the text handed to the clipboard
    (a best-effort write whose outcome is ignored). *)
Definition onNodeClick (node : RFNode) (st : AppState)
    : AppState * option jsstring :=
  let path := path (data node) in
  if isEmpty path then (st, None)
  else
    ({| st_jsonInput := st_jsonInput st; st_searchPath := path;
        st_nodes :=
          map (fun n => setHighlighted (str_eqb (id n) (id node)) n)
              (st_nodes st);
        st_edges := st_edges st; st_error := st_error st;
        st_searchResult := st_searchResult st;
        st_isDark := st_isDark st; st_rfInstance := st_rfInstance st |},
     Some path).

(* ================================================================== *)
(** ** Specification vocabulary: tree positions and pre-order indices *)

(** The values directly contained in [v], in enumeration order. *)
Definition subvalues (v : JsonValue) : list JsonValue :=
  match v with
  | JObject entries => map snd entries
  | JArray items => items
  | _ => []
  end.

(** The elements of an array at path [currentPath], numbered from [idx]
    on, each with the label and the path [traverse] passes down for it. *)
Fixpoint arrayChildren (currentPath : jsstring) (idx : nat)
    (items : list JsonValue) : list (jsstring * jsstring * JsonValue) :=
  match items with
  | [] => []
  | item :: rest =>
      (indexLabel idx, indexPath currentPath idx, item)
        :: arrayChildren currentPath (S idx) rest
  end.

(** The children of a value at path [currentPath], each with its label
    and path: the entries of an object, the elements of an array. *)
Definition children (v : JsonValue) (currentPath : jsstring)
    : list (jsstring * jsstring * JsonValue) :=
  match v with
  | JObject entries =>
      map (fun e => (fst e, keyPath currentPath (fst e), snd e)) entries
  | JArray items => arrayChildren currentPath 0 items
  | _ => []
  end.

(** Number of values in [v], itself included. *)
Fixpoint size (v : JsonValue) : nat :=
  S match v with
    | JObject entries =>
        (fix go (es : list (jsstring * JsonValue)) : nat :=
           match es with
           | [] => 0
           | (_, c) :: rest => size c + go rest
           end) entries
    | JArray items =>
        (fix go (l : list JsonValue) : nat :=
           match l with
           | [] => 0
           | c :: rest => size c + go rest
           end) items
    | _ => 0
    end.

(** The number of object entries and array elements reachable in [v],
    counted recursively. *)
Fixpoint reachableEntries (v : JsonValue) : nat :=
  match v with
  | JObject entries =>
      (fix go (es : list (jsstring * JsonValue)) : nat :=
         match es with
         | [] => 0
         | (_, c) :: rest => S (reachableEntries c) + go rest
         end) entries
  | JArray items =>
      (fix go (l : list JsonValue) : nat :=
         match l with
         | [] => 0
         | c :: rest => S (reachableEntries c) + go rest
         end) items
  | _ => 0
  end.

(** A position is the list of child indices leading from the root to a
    value; its length is the depth of the value. *)
Abbreviation pos := (list nat) (only parsing).

(** The positions below the [i]-th, [i+1]-th, ... child, given the
    positions inside each of these children. *)
Fixpoint childPositions (i : nat) (pss : list (list pos)) : list pos :=
  match pss with
  | [] => []
  | ps :: rest => map (cons i) ps ++ childPositions (S i) rest
  end.

(** All positions of [v] in pre-order. *)
Fixpoint positions (v : JsonValue) : list pos :=
  [] :: match v with
        | JObject entries =>
            (fix go (i : nat) (es : list (jsstring * JsonValue)) : list pos :=
               match es with
               | [] => []
               | (_, c) :: rest => map (cons i) (positions c) ++ go (S i) rest
               end) 0 entries
        | JArray items =>
            (fix go (i : nat) (l : list JsonValue) : list pos :=
               match l with
               | [] => []
               | c :: rest => map (cons i) (positions c) ++ go (S i) rest
               end) 0 items
        | _ => []
        end.

(** [p] is the position of a value inside [v]. *)
Fixpoint validPos (v : JsonValue) (p : pos) : Prop :=
  match p with
  | [] => True
  | i :: q =>
      match nth_error (subvalues v) i with
      | Some c => validPos c q
      | None => False
      end
  end.

(** The pre-order index of the value at position [p] of [v]. *)
Fixpoint index_of (v : JsonValue) (p : pos) : nat :=
  match p with
  | [] => 0
  | i :: q =>
      S (list_sum (map size (firstn i (subvalues v)))
         + match nth_error (subvalues v) i with
           | Some c => index_of c q
           | None => 0
           end)
  end.

(** The value at position [p] of [v]. *)
Fixpoint subvalueAt (v : JsonValue) (p : pos) : JsonValue :=
  match p with
  | [] => v
  | i :: q =>
      match nth_error (subvalues v) i with
      | Some c => subvalueAt c q
      | None => v
      end
  end.

(** Label, path and value at position [p] of the value [v] that is
    itself labelled [lbl] and located at path [currentPath]. *)
Fixpoint locate (v : JsonValue) (lbl currentPath : jsstring) (p : pos)
    : jsstring * jsstring * JsonValue :=
  match p with
  | [] => (lbl, currentPath, v)
  | i :: q =>
      match nth_error (children v currentPath) i with
      | Some (l, cp, c) => locate c l cp q
      | None => (lbl, currentPath, v)
      end
  end.

(** Equality of positions, as a boolean. *)
Fixpoint pos_eqb (a b : pos) : bool :=
  match a, b with
  | [], [] => true
  | i :: a', j :: b' => (i =? j) && pos_eqb a' b'
  | _, _ => false
  end.

(** [q] lies directly below [p]. *)
Definition isChildOf (p q : pos) : bool :=
  match q with
  | [] => false
  | _ :: _ => pos_eqb (removelast q) p
  end.

(** The positions directly below [p] in [V]. *)
Definition childrenOf (V : JsonValue) (p : pos) : list pos :=
  map (fun i => p ++ [i]) (seq 0 (length (subvalues (subvalueAt V p)))).

(* ================================================================== *)
(** ** Specification vocabulary: the tree a value stands for *)

(** The node [traverse] is expected to build for position [p] when the
    counter stood at [n0] on entry. *)
Definition nodeAt (dark : bool) (v : JsonValue) (lbl currentPath : jsstring)
    (n0 : nat) (p : pos) : RFNode :=
  let '(l, cp, c) := locate v lbl currentPath p in
  newNode dark (n0 + index_of v p) c l cp.

(** The edge expected for a non-root position [p]: from the node of the
    enclosing position [removelast p] to the node of [p]. *)
Definition edgeAt (v : JsonValue) (n0 : nat) (p : pos) : RFEdge :=
  newEdge (nodeIdStr (n0 + index_of v (removelast p)))
          (nodeIdStr (n0 + index_of v p)).

(** The edge [traverse] pushes for the value it is called on. *)
Definition rootEdge (parent : option jsstring) (n0 : nat) : list RFEdge :=
  match parent with
  | Some ((_ :: _) as p) => [newEdge p (nodeIdStr n0)]
  | _ => []
  end.

(** The state [traverse] is expected to leave: the counter advanced by
    the size of the value, one node per position in pre-order, one edge
    per position other than the root (plus the edge to the caller's
    parent, if any). *)
Definition builtState (dark : bool) (v : JsonValue)
    (parent : option jsstring) (lbl currentPath : jsstring)
    (st : BuildState) : BuildState :=
  {| nodeId := nodeId st + size v;
     nodeList := nodeList st
                 ++ map (nodeAt dark v lbl currentPath (nodeId st))
                        (positions v);
     edgeList := edgeList st
                 ++ rootEdge parent (nodeId st)
                 ++ map (edgeAt v (nodeId st)) (tl (positions v)) |}.

(** The node built for position [p] of the top-level value. *)
Definition nodeOf (dark : bool) (V : JsonValue) (p : pos) : RFNode :=
  nodeAt dark V (str "root") (str "$") 0 p.

(** The id of the node of position [p]. *)
Definition idOf (V : JsonValue) (p : pos) : jsstring :=
  nodeIdStr (index_of V p).

(** The path [traverse] passes down for position [p] of the top-level
    value. *)
Definition pathOf (V : JsonValue) (p : pos) : jsstring :=
  snd (fst (locate V (str "root") (str "$") p)).

(** The edges [createTree] produces for [V]. *)
Definition treeEdges (V : JsonValue) : list RFEdge :=
  map (edgeAt V 0) (tl (positions V)).

Definition isEmpty_edges (l : list RFEdge) : bool :=
  match l with [] => true | _ => false end.

(** The edges of [edges] that point to node [n]. *)
Definition incoming (edges : list RFEdge) (n : RFNode) : list RFEdge :=
  filter (fun e => str_eqb (target e) (id n)) edges.

(** The edges expected to point to the node of position [p]: none for
    the root, otherwise the single edge from the node of the enclosing
    position (the parent). *)
Definition parentEdges (dark : bool) (V : JsonValue) (p : pos)
    : list RFEdge :=
  match p with
  | [] => []
  | _ :: _ => [newEdge (id (nodeOf dark V (removelast p)))
                       (id (nodeOf dark V p))]
  end.

(** The theme effect of the component: [{ ...n, data: { ...n.data, isDark } }]. *)
Definition setDark (dark : bool) (n : RFNode) : RFNode :=
  {| id := id n;
     data := {| label := label (data n); value := value (data n);
                type := type (data n); path := path (data n);
                isDark := dark; isHighlighted := isHighlighted (data n) |};
     position := position n |}.

(** The ids of [next] are fresh with respect to [prev]: none of them
    was used by [prev]. *)
Definition freshIds (prev next : list RFNode) : Prop :=
  forall n, In n next -> ~ In (id n) (map id prev).

(* ================================================================== *)
(** ** Specification vocabulary: keys and path segments *)

(** The two characters that start a path segment: ["."] and ["["]. *)
Definition isSep (c : N) : bool := ((c =? 46) || (c =? 91))%N.

Definition isDigit (c : N) : bool := ((48 <=? c) && (c <=? 57))%N.

(** A key that contains neither ["."] nor ["["]. *)
Definition plainKey (k : jsstring) : bool :=
  forallb (fun c => negb (isSep c)) k.

Fixpoint distinct (ks : list jsstring) : bool :=
  match ks with
  | [] => true
  | k :: rest => negb (existsb (str_eqb k) rest) && distinct rest
  end.

(** Every object in [v] has pairwise distinct keys (as every JavaScript
    object has) and none of its keys contains ["."] or ["["]. *)
Fixpoint plainKeys (v : JsonValue) : bool :=
  match v with
  | JObject entries =>
      distinct (map fst entries)
      && (fix go (es : list (jsstring * JsonValue)) : bool :=
            match es with
            | [] => true
            | (k, c) :: rest => plainKey k && plainKeys c && go rest
            end) entries
  | JArray items =>
      (fix go (l : list JsonValue) : bool :=
         match l with
         | [] => true
         | c :: rest => plainKeys c && go rest
         end) items
  | _ => true
  end.

(** [s] is empty or starts with a character on which [stop] holds. *)
Definition stopsAt (stop : N -> bool) (s : jsstring) : Prop :=
  match s with
  | [] => True
  | c :: _ => stop c = true
  end.

(* ================================================================== *)
(** ** Specification vocabulary: searches *)

(** [setSearchPath(s)], the setter of the search field. *)
Definition setSearchPath (s : jsstring) (st : AppState) : AppState :=
  {| st_jsonInput := st_jsonInput st; st_searchPath := s;
     st_nodes := st_nodes st; st_edges := st_edges st;
     st_error := st_error st; st_searchResult := st_searchResult st;
     st_isDark := st_isDark st; st_rfInstance := st_rfInstance st |}.

(** What a search shows: the nodes with their highlight flags, the
    status text, and the command sent to the viewport. *)
Definition searchOutcome (st : AppState)
    : list RFNode * jsstring * option SetCenter :=
  (st_nodes (fst (handleSearch st)), st_searchResult (fst (handleSearch st)),
   snd (handleSearch st)).

Definition allWhiteSpace (s : jsstring) : Prop :=
  Forall (fun c => isWhiteSpace c = true) s.

(* ================================================================== *)
(** ** Specification vocabulary: levels, walks and depth *)

(** [levels[d]], or the empty list when the key is absent. *)
Definition getLevel (lv : list (nat * list jsstring)) (d : nat)
    : list jsstring :=
  match find (fun e => fst e =? d) lv with
  | Some e => snd e
  | None => []
  end.

(** The keys of [lv] are strictly ascending. *)
Fixpoint ascending (lv : list (nat * list jsstring)) : Prop :=
  match lv with
  | [] => True
  | e :: rest => Forall (fun e' => fst e < fst e') rest /\ ascending rest
  end.

(** The effect on [levels] of visiting, in order, nodes given by their
    level and id. *)
Definition pushAll (visits : list (nat * jsstring))
    : list (nat * list jsstring) :=
  fold_left (fun lv e => levels_push (fst e) (snd e) lv) visits [].

(** The ids visited at level [d], in visiting order. *)
Definition levelOf (visits : list (nat * jsstring)) (d : nat)
    : list jsstring :=
  map snd (filter (fun e => fst e =? d) visits).

(** The assignments [node.position = ...] one level gives rise to. *)
Fixpoint levelAssign (levelNum len : nat) (nodeIds : list jsstring)
    (index : nat) : list (jsstring * XYPosition) :=
  match nodeIds with
  | [] => []
  | nodeId :: rest =>
      (nodeId, levelPosition index len levelNum)
        :: levelAssign levelNum len rest (S index)
  end.

(** All assignments of the second phase of [layoutNodes], in order. *)
Definition assignments (lv : list (nat * list jsstring))
    : list (jsstring * XYPosition) :=
  flat_map (fun e => levelAssign (fst e) (length (snd e)) (snd e) 0) lv.

(** The nodes of the tree of [V] in pre-order, each with its depth. *)
Definition visits (V : JsonValue) : list (nat * jsstring) :=
  map (fun p => (length p, idOf V p)) (positions V).

(** The state of [levels] and [visited] once the first [k] nodes of the
    tree of [V] have been visited in pre-order. *)
Definition visitState (V : JsonValue) (k : nat) : LayoutState :=
  {| levels := pushAll (firstn k (visits V));
     visited := map snd (firstn k (visits V)) |}.

(** What [findLevel] does for the subtree [v] found at a position [p] of
    [V], given enough fuel: started after the nodes before [p] were
    visited, it visits the nodes of [v], in pre-order. *)
Definition visitsSubtree (V v : JsonValue) : Prop :=
  forall p fuel,
    validPos V p -> subvalueAt V p = v -> size v <= fuel ->
    findLevel fuel (treeEdges V) (idOf V p) (length p)
              (visitState V (index_of V p))
    = Some (visitState V (index_of V p + size v)).

(** A walk of [n] edges from node [a] to node [b]. *)
Inductive walk (edges : list RFEdge) (a : jsstring)
    : jsstring -> nat -> Prop :=
| walk_nil : walk edges a a 0
| walk_step b e n :
    walk edges a b n -> In e edges -> source e = b ->
    walk edges a (target e) (S n).

(** [d] is the breadth-first depth of [b] from [root]: the length of a
    shortest walk from [root] to [b]. *)
Definition bfsDepth (edges : list RFEdge) (root b : jsstring) (d : nat)
    : Prop :=
  walk edges root b d /\ forall m, walk edges root b m -> d <= m.

Definition reachable (edges : list RFEdge) (root b : jsstring) : Prop :=
  exists d, walk edges root b d.

(** Number of nodes of the tree of [V] at depth [d]. *)
Definition levelSize (V : JsonValue) (d : nat) : nat :=
  length (filter (fun q => length q =? d) (positions V)).

(** Number of nodes at the depth of [p] that precede [p] in pre-order. *)
Definition indexInLevel (V : JsonValue) (p : pos) : nat :=
  length (filter (fun q => length q =? length p)
                 (firstn (index_of V p) (positions V))).


(* ================================================================== *)
(** ** Sample values and states *)

(** [{"a": [null]}] *)
Definition sampleNested : JsonValue :=
  JObject [(str "a", JArray [JNull])].

(** [{"a.b": 1, "a": {"b": 2}}] *)
Definition sampleDottedKey : JsonValue :=
  JObject [(str "a.b", JNumber 1%float);
           (str "a", JObject [(str "b", JNumber 2%float)])].


(** [{"$x": 1}], a key that starts with a dollar sign. *)
Definition sampleDollarKey : JsonValue :=
  JObject [(str "$x", JNumber 1%float)].

(** A state holding the tree of [V] and nothing else. *)
Definition stateWithTree (V : JsonValue) : AppState :=
  {| st_jsonInput := []; st_searchPath := [];
     st_nodes := fst (createTree_default true V);
     st_edges := snd (createTree_default true V);
     st_error := []; st_searchResult := [];
     st_isDark := true; st_rfInstance := None |}.

(** A stand-in for [JSON.parse] that knows two inputs: it parses [null]
    and [[null]] and rejects everything else with the message V8 gives
    for a text that stops too early. *)
Definition sampleParse (text : jsstring) : JsonValue + jsstring :=
  if str_eqb text (str "null") then inl JNull
  else if str_eqb text (str "[null]") then inl (JArray [JNull])
  else inr (str "Unexpected end of JSON input").

(** Depth of nesting of a value: the number of calls of [traverse], and
    of [findLevel], that are open at once when its deepest value is
    visited, less one. *)
Fixpoint nesting (v : JsonValue) : nat :=
  match v with
  | JObject entries =>
      S ((fix go (es : list (jsstring * JsonValue)) : nat :=
            match es with
            | [] => 0
            | (_, c) :: rest => Nat.max (nesting c) (go rest)
            end) entries)
  | JArray items =>
      S ((fix go (l : list JsonValue) : nat :=
            match l with
            | [] => 0
            | c :: rest => Nat.max (nesting c) (go rest)
            end) items)
  | _ => 0
  end.

(** A stand-in for the engine: its call stack holds the recursion of
    [createTree] and [layoutNodes] on values nested at most 2000 deep,
    and gives out beyond that with the message of V8. *)
Definition sampleEngine (v : JsonValue) : option jsstring :=
  if 2000 <? nesting v then Some (str "Maximum call stack size exceeded")
  else None.

(** [n + 1] arrays, one inside the other: [[]], [[[]]], ... *)
Definition nestedArrays (n : nat) : JsonValue :=
  Nat.iter n (fun v => JArray [v]) (JArray []).

(** The text of [nestedArrays n]: [n + 1] opening brackets, then as many
    closing ones. *)
Definition nestedArraysText (n : nat) : jsstring :=
  repeat 91%N (S n) ++ repeat 93%N (S n).

(** A stand-in for [JSON.parse] on texts of nested empty arrays: it
    counts the opening brackets, parses the text when as many closing
    brackets and nothing else follow, and rejects every other text. *)
Fixpoint openingBrackets (text : jsstring) : nat * jsstring :=
  match text with
  | c :: rest =>
      if (c =? 91)%N
      then let '(n, tail) := openingBrackets rest in (S n, tail)
      else (0, text)
  | [] => (0, [])
  end.

Definition parseNestedArrays (text : jsstring) : JsonValue + jsstring :=
  let '(n, tail) := openingBrackets text in
  if (0 <? n) && str_eqb tail (repeat 93%N n)
  then inl (nestedArrays (pred n))
  else inr (str "Unexpected end of JSON input").

(** The component state with [text] in the input box and ["a"] in the
    search field. *)
Definition stateWithInput (text : jsstring) : AppState :=
  {| st_jsonInput := text; st_searchPath := str "a";
     st_nodes := []; st_edges := [];
     st_error := []; st_searchResult := str "Match found!";
     st_isDark := true; st_rfInstance := None |}.

(* ================================================================== *)
(** ** Specification vocabulary: the component state *)

(** Every node carries the theme flag of the component. *)
Definition themeConsistent (st : AppState) : Prop :=
  Forall (fun n => isDark (data n) = st_isDark st) (st_nodes st).

(** The nodes shown highlighted. *)
Definition highlightedNodes (nodes : list RFNode) : list RFNode :=
  filter (fun n => isHighlighted (data n)) nodes.

(** A node without its highlight flag. *)
Definition unhighlighted (n : RFNode) : RFNode := setHighlighted false n.



(** The node of position [p] of [V] as the layout leaves it. *)
Definition laidNode (dark : bool) (V : JsonValue) (p : pos) : RFNode :=
  {| id := id (nodeOf dark V p);
     data := data (nodeOf dark V p);
     position := levelPosition (indexInLevel V p)
                   (levelSize V (length p)) (length p) |}.




(** [s] does not start with whitespace. *)
Definition noLeadingWs (s : jsstring) : Prop :=
  match s with
  | [] => True
  | c :: _ => isWhiteSpace c = false
  end.

(* ================================================================== *)
(** ** Strings: equality, decimal rendering *)

Lemma str_eqb_eq (a b : jsstring) : str_eqb a b = true <-> a = b.
Proof.
  revert b; induction a as [|c a IH]; intros [|d b]; simpl;
    try (split; [discriminate | discriminate]); try tauto.
  rewrite andb_true_iff, N.eqb_eq, IH.
  split; [intros [-> ->]; reflexivity | intros H; inversion H; auto].
Qed.

Lemma str_eqb_refl (a : jsstring) : str_eqb a a = true.
Proof. apply str_eqb_eq; reflexivity. Qed.

Lemma str_inj (s t : string) : str s = str t -> s = t.
Proof.
  unfold str; intros H.
  rewrite <- (string_of_list_ascii_of_string s),
          <- (string_of_list_ascii_of_string t).
  f_equal.
  revert H. generalize (list_ascii_of_string s) (list_ascii_of_string t).
  induction l as [|a l IH]; intros [|b l']; simpl; try discriminate; auto.
  intros H; inversion H as [[Hab Hl]].
  f_equal; [| auto].
  rewrite <- (ascii_N_embedding a), <- (ascii_N_embedding b), Hab.
  reflexivity.
Qed.

Lemma showNat_inj (n m : nat) : showNat n = showNat m -> n = m.
Proof.
  unfold showNat; intros H. apply str_inj in H.
  assert (E : Nat.to_uint n = Nat.to_uint m).
  { pose proof (NilEmpty.usu (Nat.to_uint n)) as Hn.
    pose proof (NilEmpty.usu (Nat.to_uint m)) as Hm.
    rewrite H in Hn. congruence. }
  rewrite <- (DecimalNat.Unsigned.of_to n), <- (DecimalNat.Unsigned.of_to m).
  now rewrite E.
Qed.

Lemma nodeIdStr_inj (n m : nat) : nodeIdStr n = nodeIdStr m -> n = m.
Proof.
  unfold nodeIdStr; intros H. apply app_inv_head in H.
  now apply showNat_inj.
Qed.

Lemma showNat_digits (n : nat) : Forall (fun c => isDigit c = true) (showNat n).
Proof.
  unfold showNat. generalize (Nat.to_uint n) as d.
  induction d; simpl; try (constructor; [reflexivity | assumption]).
  constructor.
Qed.

(* ================================================================== *)
(** ** Induction over JSON values and unfolding equations *)

Lemma JsonValue_tree_ind (P : JsonValue -> Prop) :
  (forall v, Forall P (subvalues v) -> P v) -> forall v, P v.
Proof.
  intros H. fix IH 1. intros v. apply H.
  destruct v as [| | | |items|entries]; simpl; try constructor.
  - revert items. fix IHl 1.
    intros [|c r]; constructor; [apply IH | apply IHl].
  - revert entries. fix IHl 1.
    intros [|[k c] r]; simpl; constructor; [apply IH | apply IHl].
Qed.

Lemma children_values (v : JsonValue) (cp : jsstring) :
  map snd (children v cp) = subvalues v.
Proof.
  destruct v as [| | | |items|entries]; simpl; auto.
  - generalize 0. induction items as [|c r IH]; intros i; simpl; auto.
    now rewrite IH.
  - induction entries as [|[k c] r IH]; simpl; auto. now rewrite IH.
Qed.

Lemma size_eq (v : JsonValue) :
  size v = S (list_sum (map size (subvalues v))).
Proof.
  destruct v as [| | | |items|entries]; simpl; auto; f_equal.
  - induction items as [|c r IH]; simpl; auto.
  - induction entries as [|[k c] r IH]; simpl; auto.
Qed.

Lemma reachableEntries_eq (v : JsonValue) :
  reachableEntries v
  = list_sum (map (fun c => S (reachableEntries c)) (subvalues v)).
Proof.
  destruct v as [| | | |items|entries]; simpl; auto.
  - induction items as [|c r IH]; simpl; auto.
  - induction entries as [|[k c] r IH]; simpl; auto.
Qed.

Lemma positions_eq (v : JsonValue) :
  positions v = [] :: childPositions 0 (map positions (subvalues v)).
Proof.
  destruct v as [| | | |items|entries]; simpl; auto; f_equal.
  - generalize 0. induction items as [|c r IH]; intros i; simpl; auto.
    now rewrite IH.
  - generalize 0. induction entries as [|[k c] r IH]; intros i; simpl; auto.
    now rewrite IH.
Qed.

(** [traverse] visits the value, then traverses its children in order,
    each with the id of this node as parent. *)
Lemma traverse_eq dark v parent lbl cp st :
  traverse dark v parent lbl cp st
  = fold_left
      (fun s ch =>
         traverse dark (snd ch) (Some (nodeIdStr (nodeId st)))
                  (fst (fst ch)) (snd (fst ch)) s)
      (children v cp) (visit dark v parent lbl cp st).
Proof.
  destruct v as [| | | |items|entries]; simpl; auto.
  - generalize (visit dark (JArray items) parent lbl cp st) as s.
    generalize 0 as i.
    induction items as [|c r IH]; intros i s; simpl; auto.
  - generalize (visit dark (JObject entries) parent lbl cp st) as s.
    induction entries as [|[k c] r IH]; intros s; simpl; auto.
Qed.

(* ================================================================== *)
(** ** [traverse] builds one node per position, in pre-order *)

Lemma childPositions_nonempty i pss q :
  In q (childPositions i pss) -> q <> [].
Proof.
  revert i; induction pss as [|ps r IH]; intros i; simpl; [tauto|].
  rewrite in_app_iff, in_map_iff.
  intros [[q' [<- _]] | H]; [discriminate | eauto].
Qed.

Lemma tl_positions_nonempty v q : In q (tl (positions v)) -> q <> [].
Proof. rewrite positions_eq; simpl. apply childPositions_nonempty. Qed.

Lemma nth_error_subvalues v cp i l cpc c :
  nth_error (children v cp) i = Some (l, cpc, c) ->
  nth_error (subvalues v) i = Some c.
Proof.
  intros H. rewrite <- (children_values v cp), nth_error_map, H.
  reflexivity.
Qed.

Lemma nodeAt_cons dark v lbl cp n0 i q l cpc c :
  nth_error (children v cp) i = Some (l, cpc, c) ->
  nodeAt dark v lbl cp n0 (i :: q)
  = nodeAt dark c l cpc
      (S n0 + list_sum (map size (firstn i (subvalues v)))) q.
Proof.
  intros H. unfold nodeAt; simpl.
  rewrite H, (nth_error_subvalues _ _ _ _ _ _ H).
  destruct (locate c l cpc q) as [[l' cp'] c'].
  f_equal; lia.
Qed.

Lemma edgeAt_cons v cp n0 i q l cpc c :
  nth_error (children v cp) i = Some (l, cpc, c) ->
  q <> [] ->
  edgeAt v n0 (i :: q)
  = edgeAt c (S n0 + list_sum (map size (firstn i (subvalues v)))) q.
Proof.
  intros H Hq. unfold edgeAt.
  assert (E : removelast (i :: q) = i :: removelast q)
    by (destruct q; [congruence | reflexivity]).
  rewrite E; simpl.
  rewrite (nth_error_subvalues _ _ _ _ _ _ H).
  f_equal; f_equal; lia.
Qed.

Lemma edgeAt_single v cp n0 i l cpc c :
  nth_error (children v cp) i = Some (l, cpc, c) ->
  edgeAt v n0 [i]
  = newEdge (nodeIdStr n0)
      (nodeIdStr (S n0 + list_sum (map size (firstn i (subvalues v))))).
Proof.
  intros H. unfold edgeAt; simpl.
  rewrite (nth_error_subvalues _ _ _ _ _ _ H); simpl.
  f_equal; f_equal; lia.
Qed.

(** The loop over the children, started after [pre] of them. *)
Lemma traverse_children dark v lbl cp n0 :
  forall suf pre s,
    pre ++ suf = children v cp ->
    Forall (fun ch => forall parent l c st,
              traverse dark (snd ch) parent l c st
              = builtState dark (snd ch) parent l c st) suf ->
    nodeId s = S n0 + list_sum (map size (map snd pre)) ->
    fold_left
      (fun s ch =>
         traverse dark (snd ch) (Some (nodeIdStr n0))
                  (fst (fst ch)) (snd (fst ch)) s)
      suf s
    = {| nodeId := nodeId s + list_sum (map size (map snd suf));
         nodeList := nodeList s
           ++ map (nodeAt dark v lbl cp n0)
                (childPositions (length pre) (map positions (map snd suf)));
         edgeList := edgeList s
           ++ map (edgeAt v n0)
                (childPositions (length pre) (map positions (map snd suf)))
      |}.
Proof.
  induction suf as [|[[l cpc] c] suf IH]; intros pre s Hcs Hall Hn; simpl.
  - destruct s; simpl; rewrite Nat.add_0_r, !app_nil_r; reflexivity.
  - inversion Hall as [|? ? Hc Hrest]; subst.
    assert (Hnth : nth_error (children v cp) (length pre) = Some (l, cpc, c)).
    { rewrite <- Hcs, nth_error_app2, Nat.sub_diag by lia. reflexivity. }
    assert (Hoff : list_sum (map size (firstn (length pre) (subvalues v)))
                   = list_sum (map size (map snd pre))).
    { rewrite <- (children_values v cp), <- Hcs, map_app.
      rewrite <- (length_map snd pre) at 1.
      rewrite firstn_app, Nat.sub_diag, firstn_all; simpl.
      now rewrite app_nil_r. }
    simpl in Hc. rewrite Hc.
    rewrite (IH (pre ++ [(l, cpc, c)])).
    + unfold builtState; simpl.
      rewrite length_app; simpl. rewrite Nat.add_1_r.
      rewrite !map_app, <- !app_assoc.
      f_equal; [lia | f_equal | f_equal].
      * f_equal. rewrite map_map. symmetry. apply map_ext. intros q.
        rewrite (nodeAt_cons _ _ _ _ _ _ _ _ _ _ Hnth), Hoff, Hn.
        reflexivity.
      * f_equal. rewrite (positions_eq c); simpl. f_equal.
        -- rewrite (edgeAt_single _ _ _ _ _ _ _ Hnth), Hoff, Hn.
           reflexivity.
        -- rewrite map_map. symmetry. apply map_ext_in. intros q Hq.
           rewrite (edgeAt_cons _ _ _ _ _ _ _ _ Hnth), Hoff, Hn;
             [reflexivity | eapply childPositions_nonempty; eauto].
    + rewrite <- app_assoc; exact Hcs.
    + exact Hrest.
    + unfold builtState; simpl.
      rewrite !map_app, list_sum_app; simpl. lia.
Qed.

(** Refinement: [traverse] computes [builtState]. *)
Theorem traverse_spec dark v :
  forall parent lbl cp st,
    traverse dark v parent lbl cp st = builtState dark v parent lbl cp st.
Proof.
  induction v as [v IHv] using JsonValue_tree_ind.
  intros parent lbl cp st.
  rewrite traverse_eq.
  rewrite (traverse_children dark v lbl cp (nodeId st) (children v cp) []);
    simpl; auto.
  - unfold builtState, visit; simpl.
    rewrite children_values, (size_eq v), (positions_eq v); simpl.
    f_equal.
    + lia.
    + rewrite <- app_assoc; simpl. unfold nodeAt at 2; simpl.
      now rewrite Nat.add_0_r.
    + destruct parent as [[|a p]|]; simpl;
        rewrite <- ?app_assoc; reflexivity.
  - rewrite <- (children_values v cp) in IHv.
    rewrite Forall_map in IHv. exact IHv.
Qed.

(* ================================================================== *)
(** ** Positions: pre-order indices, validity, enclosing position *)

Lemma map_add_seq a n : map (fun k => a + k) (seq 0 n) = seq a n.
Proof.
  revert a; induction n as [|n IH]; intros a; simpl; auto.
  rewrite Nat.add_0_r; f_equal.
  rewrite <- seq_shift, map_map, <- (IH (S a)).
  apply map_ext; intros k; lia.
Qed.

Lemma index_of_children v :
  forall suf pre,
    pre ++ suf = subvalues v ->
    Forall (fun c => map (index_of c) (positions c) = seq 0 (size c)) suf ->
    map (index_of v) (childPositions (length pre) (map positions suf))
    = seq (S (list_sum (map size pre))) (list_sum (map size suf)).
Proof.
  induction suf as [|c suf IH]; intros pre Hv Hall; simpl; auto.
  inversion Hall as [|? ? Hc Hrest]; subst.
  assert (Hnth : nth_error (subvalues v) (length pre) = Some c).
  { rewrite <- Hv, nth_error_app2, Nat.sub_diag by lia. reflexivity. }
  assert (Hoff : firstn (length pre) (subvalues v) = pre).
  { rewrite <- Hv, firstn_app, Nat.sub_diag, firstn_all; simpl.
    now rewrite app_nil_r. }
  rewrite map_app, map_map, seq_app. f_equal.
  - rewrite <- map_add_seq, <- Hc, map_map.
    apply map_ext; intros q; simpl. rewrite Hnth, Hoff. reflexivity.
  - specialize (IH (pre ++ [c])).
    replace (length (pre ++ [c])) with (S (length pre)) in IH
      by (rewrite length_app; simpl; lia).
    rewrite IH; auto.
    + rewrite map_app, list_sum_app; simpl. f_equal; lia.
    + now rewrite <- app_assoc.
Qed.

Lemma positions_index v : map (index_of v) (positions v) = seq 0 (size v).
Proof.
  induction v as [v IHv] using JsonValue_tree_ind.
  rewrite positions_eq, size_eq; simpl. f_equal.
  apply (index_of_children v (subvalues v) []); auto.
Qed.

Lemma positions_length v : length (positions v) = size v.
Proof.
  rewrite <- (length_map (index_of v)), positions_index. apply length_seq.
Qed.

Lemma positions_NoDup v : NoDup (positions v).
Proof.
  apply NoDup_map_inv with (f := index_of v).
  rewrite positions_index. apply seq_NoDup.
Qed.

Lemma NoDup_map_inj {A B : Type} (f : A -> B) (l : list A) :
  NoDup (map f l) ->
  forall a b, In a l -> In b l -> f a = f b -> a = b.
Proof.
  induction l as [|c l IH]; simpl; intros Hnd a b Ha Hb E; [tauto|].
  inversion Hnd as [|? ? Hnot Hnd']; subst.
  destruct Ha as [<- | Ha], Hb as [<- | Hb]; auto.
  - exfalso; apply Hnot. rewrite E. now apply in_map.
  - exfalso; apply Hnot. rewrite <- E. now apply in_map.
Qed.

Lemma index_of_inj v p q :
  In p (positions v) -> In q (positions v) ->
  index_of v p = index_of v q -> p = q.
Proof.
  apply NoDup_map_inj. rewrite positions_index. apply seq_NoDup.
Qed.

Lemma in_childPositions pss : forall i p,
  In p (childPositions i pss)
  <-> exists j q ps, p = (i + j) :: q /\ nth_error pss j = Some ps /\ In q ps.
Proof.
  induction pss as [|ps0 pss IH]; intros i p; simpl.
  - split; [tauto | intros (j & q & ps & _ & H & _)].
    destruct j; discriminate.
  - rewrite in_app_iff, in_map_iff, IH. split.
    + intros [(q & <- & Hq) | (j & q & ps & -> & Hj & Hq)].
      * exists 0, q, ps0. rewrite Nat.add_0_r. auto.
      * exists (S j), q, ps. rewrite Nat.add_succ_r. auto.
    + intros (j & q & ps & -> & Hj & Hq). destruct j as [|j]; simpl in Hj.
      * left. inversion Hj; subst. exists q. rewrite Nat.add_0_r. auto.
      * right. exists j, q, ps. rewrite Nat.add_succ_r. auto.
Qed.

Lemma positions_valid : forall p v, In p (positions v) <-> validPos v p.
Proof.
  induction p as [|i q IH]; intros v.
  - rewrite positions_eq; simpl; tauto.
  - rewrite positions_eq; simpl. rewrite in_childPositions. split.
    + intros [H | (j & q' & ps & E & Hj & Hq)]; [discriminate|].
      inversion E; subst. rewrite nth_error_map in Hj.
      destruct (nth_error (subvalues v) j) as [c|]; [|discriminate].
      inversion Hj; subst. now apply IH.
    + intros H. right.
      destruct (nth_error (subvalues v) i) as [c|] eqn:E; [|tauto].
      exists i, q, (positions c). rewrite nth_error_map, E.
      repeat split; auto. now apply IH.
Qed.

Lemma validPos_removelast : forall p v, validPos v p -> validPos v (removelast p).
Proof.
  induction p as [|i q IH]; intros v H; simpl; auto.
  destruct q as [|j q]; [exact I|].
  simpl in H. cbn [validPos].
  destruct (nth_error (subvalues v) i) as [c|]; [|tauto].
  apply (IH c H).
Qed.

Lemma positions_parent v p :
  In p (positions v) -> In (removelast p) (positions v).
Proof. rewrite !positions_valid. apply validPos_removelast. Qed.

(* ================================================================== *)
(** ** The tree built by [createTree] *)

Lemma createTree_default_spec dark V :
  createTree_default dark V
  = (map (nodeOf dark V) (positions V), map (edgeAt V 0) (tl (positions V))).
Proof.
  unfold createTree_default, createTree. rewrite traverse_spec. reflexivity.
Qed.

Lemma nth_error_positions V p :
  In p (positions V) -> nth_error (positions V) (index_of V p) = Some p.
Proof.
  intros Hp. destruct (In_nth_error _ _ Hp) as (k & Hk).
  assert (E : nth_error (map (index_of V) (positions V)) k
              = Some (index_of V p)) by (rewrite nth_error_map, Hk; auto).
  rewrite positions_index, nth_error_seq in E.
  destruct (k <? size V); [| discriminate].
  inversion E; subst. exact Hk.
Qed.

Lemma createTree_nth dark V p :
  In p (positions V) ->
  nth_error (fst (createTree_default dark V)) (index_of V p)
  = Some (nodeOf dark V p).
Proof.
  intros Hp. rewrite createTree_default_spec; simpl fst.
  now rewrite nth_error_map, (nth_error_positions V p Hp).
Qed.

Lemma nodeOf_id dark V p : id (nodeOf dark V p) = nodeIdStr (index_of V p).
Proof.
  unfold nodeOf, nodeAt.
  destruct (locate V (str "root") (str "$") p) as [[l cp] c]. reflexivity.
Qed.

Lemma createTree_ids dark V :
  map id (fst (createTree_default dark V)) = map nodeIdStr (seq 0 (size V)).
Proof.
  rewrite createTree_default_spec; simpl.
  rewrite <- positions_index, !map_map.
  apply map_ext; intros p. apply nodeOf_id.
Qed.

Lemma size_reachableEntries v : size v = S (reachableEntries v).
Proof.
  induction v as [v IHv] using JsonValue_tree_ind.
  rewrite size_eq, reachableEntries_eq. f_equal.
  induction IHv as [|c l Hc _ IH]; simpl; [reflexivity | lia].
Qed.

(** C4: the number of nodes [createTree] produces is one plus the number
    of object entries and array elements reachable in the value. *)
Theorem createTree_node_count dark V :
  length (fst (createTree_default dark V)) = 1 + reachableEntries V.
Proof.
  rewrite createTree_default_spec; simpl fst.
  rewrite length_map, positions_length. apply size_reachableEntries.
Qed.

(** C8, the claim as stated fails: a rebuild does not assign fresh ids;
    already for the value [null] both builds use the id [node-0]. *)
Lemma createTree_rebuild_not_fresh :
  ~ freshIds (fst (createTree_default true JNull))
             (fst (createTree_default true JNull)).
Proof.
  intros H. apply (H (nodeOf true JNull [])); simpl; auto.
Qed.

(** C8, amended: [createTree] is a function of the theme flag and the
    value alone; every build numbers its nodes [node-0], [node-1], ...
    from zero, so two builds of the same value have the same ids and the
    same edges, and their nodes differ at most in the theme flag. *)
Theorem createTree_rebuild dark1 dark2 V :
  map id (fst (createTree_default dark1 V)) = map nodeIdStr (seq 0 (size V))
  /\ map id (fst (createTree_default dark2 V))
     = map id (fst (createTree_default dark1 V))
  /\ snd (createTree_default dark2 V) = snd (createTree_default dark1 V)
  /\ fst (createTree_default dark2 V)
     = map (setDark dark2) (fst (createTree_default dark1 V)).
Proof.
  repeat split.
  - apply createTree_ids.
  - now rewrite !createTree_ids.
  - now rewrite !createTree_default_spec.
  - rewrite !createTree_default_spec; simpl. rewrite map_map.
    apply map_ext; intros p. unfold nodeOf, nodeAt.
    destruct (locate V (str "root") (str "$") p) as [[l cp] c]. reflexivity.
Qed.

(* ================================================================== *)
(** ** Root and incoming edges *)

Lemma filter_none {A : Type} (f : A -> bool) (l : list A) :
  (forall a, In a l -> f a = false) -> filter f l = [].
Proof.
  induction l as [|b l IH]; simpl; intros H; auto.
  rewrite (H b) by auto. apply IH; auto.
Qed.

Lemma filter_single {A : Type} (f : A -> bool) (l : list A) (a : A) :
  NoDup l -> In a l -> f a = true ->
  (forall b, In b l -> f b = true -> b = a) ->
  filter f l = [a].
Proof.
  induction l as [|b l IH]; simpl; intros Hnd Hin Ha Huniq; [tauto|].
  inversion Hnd as [|? ? Hnot Hnd']; subst.
  destruct Hin as [-> | Hin].
  - rewrite Ha. f_equal. apply filter_none. intros c Hc.
    destruct (f c) eqn:E; auto.
    exfalso; apply Hnot. now rewrite <- (Huniq c) by auto.
  - destruct (f b) eqn:E.
    + exfalso; apply Hnot. now rewrite (Huniq b) by auto.
    + apply IH; auto.
Qed.

Lemma in_tl_positions V p :
  In p (tl (positions V)) <-> In p (positions V) /\ p <> [].
Proof.
  split.
  - intros H; split; [| eapply tl_positions_nonempty; eauto].
    rewrite positions_eq in *; simpl in *; auto.
  - intros [H Hp]. rewrite positions_eq in *; simpl in *.
    destruct H as [<- | H]; [congruence | auto].
Qed.

Lemma tl_positions_NoDup V : NoDup (tl (positions V)).
Proof.
  pose proof (positions_NoDup V) as H.
  rewrite positions_eq in *; simpl. now inversion H.
Qed.

(** An edge of the tree points to the node of [p] exactly when it is the
    edge expected for [p]. *)
Lemma edge_target_iff dark V p q :
  In p (positions V) -> In q (tl (positions V)) ->
  str_eqb (target (edgeAt V 0 q)) (id (nodeOf dark V p)) = true <-> q = p.
Proof.
  intros Hp Hq. rewrite str_eqb_eq, nodeOf_id; simpl. split.
  - intros E. apply nodeIdStr_inj in E.
    apply in_tl_positions in Hq. apply (index_of_inj V); tauto.
  - now intros ->.
Qed.

Lemma incoming_spec dark V p :
  In p (positions V) ->
  incoming (snd (createTree_default dark V)) (nodeOf dark V p)
  = parentEdges dark V p.
Proof.
  intros Hp. rewrite createTree_default_spec; simpl snd.
  unfold incoming. rewrite filter_map_swap.
  destruct p as [|i p].
  - rewrite filter_none; [reflexivity|]. intros q Hq.
    destruct (str_eqb _ _) eqn:E; auto.
    apply (edge_target_iff dark V [] q Hp Hq) in E.
    apply tl_positions_nonempty in Hq. congruence.
  - assert (Hin : In (i :: p) (tl (positions V)))
      by (apply in_tl_positions; split; [assumption | discriminate]).
    rewrite (filter_single _ _ (i :: p)).
    + unfold parentEdges, edgeAt. now rewrite !nodeOf_id.
    + apply tl_positions_NoDup.
    + exact Hin.
    + now apply edge_target_iff.
    + intros q Hq E. now apply (edge_target_iff dark V (i :: p) q Hp Hq).
Qed.

Lemma hasIncoming_incoming edges n :
  hasIncoming edges n = negb (isEmpty_edges (incoming edges n)).
Proof.
  unfold hasIncoming, incoming.
  induction edges as [|e edges IH]; simpl; auto.
  destruct (str_eqb (target e) (id n)); simpl; auto.
Qed.

Lemma noIncoming_root dark V :
  filter (fun n => negb (hasIncoming (snd (createTree_default dark V)) n))
         (fst (createTree_default dark V))
  = [nodeOf dark V []].
Proof.
  replace (fst (createTree_default dark V))
    with (map (nodeOf dark V) (positions V))
    by now rewrite createTree_default_spec.
  rewrite filter_map_swap.
  rewrite (filter_single _ _ []); auto.
  - apply positions_NoDup.
  - rewrite positions_eq; simpl; auto.
  - now rewrite hasIncoming_incoming, incoming_spec
      by (rewrite positions_eq; simpl; auto).
  - intros q Hq. rewrite hasIncoming_incoming, incoming_spec by assumption.
    destruct q; [reflexivity | discriminate].
Qed.

(** C3: the nodes [createTree] produces are the nodes of the positions of
    the value; exactly one of them, the node of the root position, is the
    target of no edge; and the edges whose [target] is the id of the node
    of any other position [p] are exactly one edge, whose [source] is
    the id of the node of the enclosing position (the parent), itself a
    node of the list; the root has no such edge. *)
Theorem createTree_rooted dark V p :
  In p (positions V) ->
  let nodes := fst (createTree_default dark V) in
  let edges := snd (createTree_default dark V) in
  nodes = map (nodeOf dark V) (positions V)
  /\ filter (fun n => negb (hasIncoming edges n)) nodes = [nodeOf dark V []]
  /\ In (removelast p) (positions V)
  /\ nth_error nodes (index_of V (removelast p))
     = Some (nodeOf dark V (removelast p))
  /\ incoming edges (nodeOf dark V p) = parentEdges dark V p
  /\ map source (filter (fun e => str_eqb (target e) (id (nodeOf dark V p)))
                        edges)
     = match p with
       | [] => []
       | _ :: _ => [id (nodeOf dark V (removelast p))]
       end
  /\ map target (filter (fun e => str_eqb (target e) (id (nodeOf dark V p)))
                        edges)
     = match p with
       | [] => []
       | _ :: _ => [id (nodeOf dark V p)]
       end.
Proof.
  intros Hp nodes edges. subst nodes edges.
  pose proof (incoming_spec dark V p Hp) as Hin.
  split; [now rewrite createTree_default_spec |].
  split; [apply noIncoming_root |].
  split; [now apply positions_parent |].
  split; [apply createTree_nth; now apply positions_parent |].
  split; [exact Hin |].
  unfold incoming in Hin. rewrite Hin.
  destruct p; split; reflexivity.
Qed.

Lemma createTree_rooted_witness :
  In [0; 0] (positions sampleNested)
  /\ map source
         (filter (fun e => str_eqb (target e) (str "node-2"))
                 (snd (createTree_default true sampleNested)))
     = [str "node-1"]
  /\ nth_error (fst (createTree_default true sampleNested)) 1
     = Some (nodeOf true sampleNested [0]).
Proof.
  assert (H : In [0; 0] (positions sampleNested)) by (simpl; auto).
  split; [exact H |].
  destruct (createTree_rooted true sampleNested [0; 0] H)
    as (_ & _ & _ & Hparent & _ & Hsource & _).
  split; [exact Hsource | exact Hparent].
Defined.

(* ================================================================== *)
(** ** Paths *)

Lemma arrayChildren_nth cp : forall items idx j l cpc c,
  nth_error (arrayChildren cp idx items) j = Some (l, cpc, c) ->
  nth_error items j = Some c
  /\ l = indexLabel (idx + j) /\ cpc = indexPath cp (idx + j).
Proof.
  induction items as [|c0 items IH]; intros idx [|j] l cpc c H;
    simpl in *; try discriminate.
  - inversion H; subst. now rewrite Nat.add_0_r.
  - rewrite Nat.add_succ_r. now apply (IH (S idx)).
Qed.

(** The child at index [i] of a value at path [cp]: an object entry,
    located at [cp.k], or an array element, located at [cp[i]]. *)
Lemma children_nth v cp i l cpc c :
  nth_error (children v cp) i = Some (l, cpc, c) ->
  (exists es, v = JObject es /\ nth_error es i = Some (l, c)
              /\ cpc = keyPath cp l)
  \/ (exists items, v = JArray items /\ nth_error items i = Some c
                    /\ l = indexLabel i /\ cpc = indexPath cp i).
Proof.
  destruct v as [| | | |items|es]; simpl; intros H;
    try (destruct i; discriminate).
  - right. exists items. split; auto. now apply arrayChildren_nth in H.
  - left. exists es. split; auto. rewrite nth_error_map in H.
    destruct (nth_error es i) as [[k c']|]; simpl in H; [|discriminate].
    inversion H; subst. auto.
Qed.

Lemma validPos_child v cp i q :
  validPos v (i :: q) ->
  exists l cpc c, nth_error (children v cp) i = Some (l, cpc, c)
                  /\ validPos c q.
Proof.
  simpl. rewrite <- (children_values v cp), nth_error_map.
  destruct (nth_error (children v cp) i) as [[[l cpc] c]|]; simpl; [|tauto].
  intros H. now exists l, cpc, c.
Qed.

Lemma locate_cons v lbl cp i q l cpc c :
  nth_error (children v cp) i = Some (l, cpc, c) ->
  locate v lbl cp (i :: q) = locate c l cpc q.
Proof. intros H; simpl. now rewrite H. Qed.

Lemma child_path_shape v cp i l cpc c :
  nth_error (children v cp) i = Some (l, cpc, c) ->
  exists seg, cpc = cp ++ seg /\ seg <> [] /\ stopsAt isSep seg.
Proof.
  intros H. apply children_nth in H.
  destruct H as [(es & _ & _ & ->) | (items & _ & _ & _ & ->)].
  - exists (str "." ++ l). repeat split. discriminate.
  - exists (str "[" ++ showNat i ++ str "]"). repeat split. discriminate.
Qed.

(** Every path below [cp] is [cp] followed by segments, each of which
    starts with ["."] or ["["]. *)
Lemma locate_path_shape : forall p v lbl cp,
  validPos v p ->
  exists t, snd (fst (locate v lbl cp p)) = cp ++ t
            /\ stopsAt isSep t /\ (p <> [] -> t <> []).
Proof.
  induction p as [|i q IH]; intros v lbl cp Hv.
  - exists []. simpl. rewrite app_nil_r. repeat split. congruence.
  - destruct (validPos_child v cp i q Hv) as (l & cpc & c & Hnth & Hq).
    rewrite (locate_cons _ _ _ _ _ _ _ _ Hnth).
    destruct (IH c l cpc Hq) as (t & -> & Ht & _).
    destruct (child_path_shape _ _ _ _ _ _ Hnth) as (seg & -> & Hne & Hseg).
    exists (seg ++ t). rewrite <- app_assoc. repeat split.
    + destruct seg; [congruence | exact Hseg].
    + destruct seg; [congruence | discriminate].
Qed.

(** A string is split in one way only into a part free of stop
    characters and a rest that is empty or starts with one. *)
Lemma split_at_stop (stop : N -> bool) : forall k1 k2 t1 t2,
  forallb (fun c => negb (stop c)) k1 = true ->
  forallb (fun c => negb (stop c)) k2 = true ->
  stopsAt stop t1 -> stopsAt stop t2 ->
  k1 ++ t1 = k2 ++ t2 -> k1 = k2 /\ t1 = t2.
Proof.
  induction k1 as [|c1 k1 IH]; intros [|c2 k2] t1 t2 H1 H2 S1 S2 E;
    simpl in *.
  - auto.
  - subst t1; simpl in S1. rewrite S1 in H2. discriminate.
  - subst t2; simpl in S2. rewrite S2 in H1. discriminate.
  - apply andb_true_iff in H1, H2. inversion E; subst.
    destruct (IH k2 t1 t2) as [-> ->]; tauto.
Qed.

Lemma distinct_NoDup ks : distinct ks = true -> NoDup ks.
Proof.
  induction ks as [|k ks IH]; simpl; intros H; constructor;
    apply andb_true_iff in H; destruct H as [H1 H2]; auto.
  intros Hin. apply negb_true_iff in H1.
  assert (E : existsb (str_eqb k) ks = true)
    by (apply existsb_exists; exists k; split; [auto | apply str_eqb_refl]).
  congruence.
Qed.

Lemma plainKeys_eq v :
  plainKeys v = true ->
  Forall (fun c => plainKeys c = true) (subvalues v)
  /\ match v with
     | JObject es => NoDup (map fst es)
                     /\ Forall (fun e => plainKey (fst e) = true) es
     | _ => True
     end.
Proof.
  destruct v as [| | | |items|es]; simpl; auto.
  - intros H; split; auto.
    induction items as [|c r IH]; simpl; auto.
    apply andb_true_iff in H. constructor; tauto.
  - intros H. apply andb_true_iff in H. destruct H as [Hd H].
    split; [| split; [now apply distinct_NoDup |]].
    + clear Hd. induction es as [|[k c] r IH]; simpl; auto.
      rewrite !andb_true_iff in H. constructor; tauto.
    + clear Hd. induction es as [|[k c] r IH]; simpl; auto.
      rewrite !andb_true_iff in H. constructor; tauto.
Qed.

Lemma plainKeys_child v cp i l cpc c :
  plainKeys v = true ->
  nth_error (children v cp) i = Some (l, cpc, c) ->
  plainKeys c = true.
Proof.
  intros H Hnth. apply plainKeys_eq in H. destruct H as [H _].
  rewrite Forall_forall in H. apply H.
  eapply nth_error_In, nth_error_subvalues; eauto.
Qed.

Lemma showNat_no_stop n :
  forallb (fun c => negb (negb (isDigit c))) (showNat n) = true.
Proof.
  apply forallb_forall. intros c Hc.
  pose proof (showNat_digits n) as H. rewrite Forall_forall in H.
  now rewrite (H c Hc).
Qed.

(** Two children of one value whose paths, continued by further
    segments, agree are the same child. *)
Lemma child_paths_differ v cp i j li cpi ci lj cpj cj t1 t2 :
  plainKeys v = true ->
  nth_error (children v cp) i = Some (li, cpi, ci) ->
  nth_error (children v cp) j = Some (lj, cpj, cj) ->
  stopsAt isSep t1 -> stopsAt isSep t2 ->
  cpi ++ t1 = cpj ++ t2 -> i = j /\ t1 = t2.
Proof.
  intros Hk Hi Hj S1 S2 E.
  apply plainKeys_eq in Hk. destruct Hk as [_ Hk].
  apply children_nth in Hi, Hj.
  destruct Hi as [(es & -> & Hi & ->) | (items & -> & Hi & -> & ->)];
  destruct Hj as [(es' & Ev & Hj & ->) | (items' & Ev & Hj & -> & ->)];
    try discriminate; inversion Ev; subst; clear Ev.
  - destruct Hk as [Hnd Hplain]. rewrite Forall_forall in Hplain.
    unfold keyPath in E. rewrite <- !app_assoc in E.
    apply app_inv_head in E. simpl in E. inversion E as [E'].
    assert (Pi : plainKey li = true)
      by (apply (Hplain (li, ci)); eapply nth_error_In; eauto).
    assert (Pj : plainKey lj = true)
      by (apply (Hplain (lj, cj)); eapply nth_error_In; eauto).
    apply (split_at_stop isSep) in E'; auto.
    destruct E' as [-> ->]. split; auto.
    rewrite NoDup_nth_error in Hnd. apply Hnd.
    + rewrite length_map. apply nth_error_Some. congruence.
    + rewrite !nth_error_map, Hi, Hj. reflexivity.
  - unfold indexPath in E. rewrite <- !app_assoc in E.
    apply app_inv_head in E. simpl in E. inversion E as [E'].
    apply (split_at_stop (fun c => negb (isDigit c))) in E';
      auto using showNat_no_stop; try reflexivity.
    destruct E' as [E1 E2]. apply showNat_inj in E1.
    inversion E2. auto.
Qed.

(** Under [plainKeys], distinct positions have distinct paths. *)
Lemma locate_path_inj : forall p q v lbl cp,
  plainKeys v = true -> validPos v p -> validPos v q ->
  snd (fst (locate v lbl cp p)) = snd (fst (locate v lbl cp q)) ->
  p = q.
Proof.
  induction p as [|i p IH]; intros [|j q] v lbl cp Hk Hp Hq E; auto.
  - destruct (locate_path_shape (j :: q) v lbl cp Hq) as (t & Et & _ & Hne).
    rewrite Et in E; simpl in E.
    rewrite <- (app_nil_r cp) in E at 1. apply app_inv_head in E.
    symmetry in E. apply Hne in E; [tauto | discriminate].
  - destruct (locate_path_shape (i :: p) v lbl cp Hp) as (t & Et & _ & Hne).
    rewrite Et in E; simpl in E.
    rewrite <- (app_nil_r cp) in E at 2. apply app_inv_head in E.
    apply Hne in E; [tauto | discriminate].
  - destruct (validPos_child v cp i p Hp) as (li & cpi & ci & Hi & Hp').
    destruct (validPos_child v cp j q Hq) as (lj & cpj & cj & Hj & Hq').
    rewrite (locate_cons _ _ _ _ _ _ _ _ Hi),
            (locate_cons _ _ _ _ _ _ _ _ Hj) in E.
    destruct (locate_path_shape p ci li cpi Hp') as (t1 & E1 & S1 & _).
    destruct (locate_path_shape q cj lj cpj Hq') as (t2 & E2 & S2 & _).
    pose proof E as E'. rewrite E1, E2 in E'.
    destruct (child_paths_differ _ _ _ _ _ _ _ _ _ _ _ _ Hk Hi Hj S1 S2 E')
      as [<- _].
    assert (Eq : (lj, cpj, cj) = (li, cpi, ci)) by congruence.
    inversion Eq; subst lj cpj cj.
    f_equal. apply (IH q ci li cpi); auto.
    eapply plainKeys_child; eauto.
Qed.

Lemma nodeOf_path dark V p : path (data (nodeOf dark V p)) = pathOf V p.
Proof.
  unfold nodeOf, nodeAt, pathOf.
  destruct (locate V (str "root") (str "$") p) as [[l cp] c]. reflexivity.
Qed.

Lemma pathOf_inj V p q :
  plainKeys V = true -> In p (positions V) -> In q (positions V) ->
  pathOf V p = pathOf V q -> p = q.
Proof.
  rewrite !positions_valid. intros Hk Hp Hq. now apply locate_path_inj.
Qed.

Lemma createTree_paths dark V :
  map (fun n => path (data n)) (fst (createTree_default dark V))
  = map (pathOf V) (positions V).
Proof.
  rewrite createTree_default_spec; simpl. rewrite map_map.
  apply map_ext; intros p. apply nodeOf_path.
Qed.

Lemma NoDup_map_in {A B : Type} (f : A -> B) (l : list A) :
  NoDup l ->
  (forall a b, In a l -> In b l -> f a = f b -> a = b) ->
  NoDup (map f l).
Proof.
  induction 1 as [|a l Hnot Hnd IH]; simpl; intros Hinj; constructor.
  - rewrite in_map_iff. intros (b & E & Hb).
    apply Hnot. rewrite (Hinj a b); auto.
  - apply IH. intros; apply Hinj; auto.
Qed.

(** C1, the claim as stated fails: in [{"a.b": 1, "a": {"b": 2}}] the
    entry ["a.b"] of the root and the entry ["b"] of ["a"] both get the
    path [$.a.b]. *)
Lemma createTree_paths_not_distinct :
  ~ NoDup (map (fun n => path (data n))
               (fst (createTree_default true sampleDottedKey))).
Proof.
  intros H. vm_compute in H.
  inversion H as [|? ? _ H1]; subst.
  inversion H1 as [|? ? Hnot _]; subst.
  apply Hnot. right; left; reflexivity.
Qed.

(** C1, amended: when no object key of the value contains ["."] or ["["]
    (and the keys of each object are pairwise distinct, as they are in
    any parsed value), the paths of the nodes [createTree] produces are
    pairwise distinct. *)
Theorem createTree_paths_distinct dark V :
  plainKeys V = true ->
  NoDup (map (fun n => path (data n)) (fst (createTree_default dark V))).
Proof.
  intros Hk. rewrite createTree_paths.
  apply NoDup_map_in; [apply positions_NoDup |].
  intros p q Hp Hq. now apply pathOf_inj.
Qed.

Lemma createTree_paths_distinct_witness :
  plainKeys sampleNested = true
  /\ NoDup (map (fun n => path (data n))
                (fst (createTree_default true sampleNested))).
Proof.
  split; [reflexivity |].
  apply (createTree_paths_distinct true sampleNested). reflexivity.
Defined.

(* ================================================================== *)
(** ** Trimming *)

Lemma trimStart_app s t :
  trimStart (s ++ t)
  = match trimStart s with
    | [] => trimStart t
    | _ :: _ => trimStart s ++ t
    end.
Proof.
  induction s as [|c s IH]; simpl; auto.
  destruct (isWhiteSpace c); auto.
Qed.

Lemma trimStart_ws ws : allWhiteSpace ws -> trimStart ws = [].
Proof. induction 1 as [|c ws Hc _ IH]; simpl; auto. now rewrite Hc. Qed.

Lemma trimStart_idem s : trimStart (trimStart s) = trimStart s.
Proof.
  induction s as [|c s IH]; simpl; auto.
  destruct (isWhiteSpace c) eqn:E; auto. simpl. now rewrite E.
Qed.

Lemma trimEnd_app s t :
  trimEnd (s ++ t)
  = match trimEnd t with
    | [] => trimEnd s
    | _ :: _ => s ++ trimEnd t
    end.
Proof.
  unfold trimEnd. rewrite rev_app_distr, trimStart_app.
  destruct (trimStart (rev t)) as [|c r] eqn:E; simpl; auto.
  rewrite rev_app_distr, rev_involutive; simpl.
  rewrite <- app_assoc.
  destruct (rev r ++ [c]) eqn:E'; [| reflexivity].
  destruct (rev r); discriminate.
Qed.

Lemma trimEnd_ws ws : allWhiteSpace ws -> trimEnd ws = [].
Proof.
  intros H. unfold trimEnd. rewrite trimStart_ws; auto.
  apply Forall_rev, H.
Qed.

Lemma trimEnd_idem s : trimEnd (trimEnd s) = trimEnd s.
Proof. unfold trimEnd. now rewrite rev_involutive, trimStart_idem. Qed.

Lemma trim_idem_end s : trimEnd (trim s) = trim s.
Proof. apply trimEnd_idem. Qed.

(** Trimming ignores leading and trailing whitespace. *)
Lemma trim_ws ws1 s ws2 :
  allWhiteSpace ws1 -> allWhiteSpace ws2 -> trim (ws1 ++ s ++ ws2) = trim s.
Proof.
  intros H1 H2. unfold trim.
  rewrite trimStart_app, (trimStart_ws ws1 H1).
  rewrite trimStart_app.
  destruct (trimStart s) as [|c r] eqn:E.
  - rewrite (trimStart_ws ws2 H2). reflexivity.
  - rewrite trimEnd_app, (trimEnd_ws ws2 H2). reflexivity.
Qed.

(** A string that is already trimmed and is prefixed by ["$."]. *)
Lemma trim_dollar_prefix t :
  t <> [] -> trimEnd t = t -> trim (str "$." ++ t) = str "$." ++ t.
Proof.
  intros Hne Ht. unfold trim. simpl trimStart.
  change (36%N :: 46%N :: t) with (str "$." ++ t).
  rewrite trimEnd_app, Ht. destruct t; congruence.
Qed.

(* ================================================================== *)
(** ** PathMatcher: [handleSearch] *)

(** [handleSearch] depends on the search field only through the trimmed
    string being empty or not, and through the normalized path. *)
Lemma searchOutcome_ext st s1 s2 :
  isEmpty (trim s1) = isEmpty (trim s2) ->
  normalizedPath s1 = normalizedPath s2 ->
  searchOutcome (setSearchPath s1 st) = searchOutcome (setSearchPath s2 st).
Proof.
  intros He Hn. unfold searchOutcome, handleSearch, matchedNode; simpl.
  rewrite He, Hn.
  destruct (isEmpty (trim s2)); [reflexivity|].
  destruct (find _ (st_nodes st)); reflexivity.
Qed.

Lemma find_first {A : Type} (f : A -> bool) (l : list A) (a : A) :
  In a l -> f a = true ->
  (forall b, In b l -> f b = true -> b = a) ->
  find f l = Some a.
Proof.
  induction l as [|b l IH]; simpl; intros Hin Ha Huniq; [tauto|].
  destruct (f b) eqn:E.
  - f_equal. apply Huniq; auto.
  - destruct Hin as [-> | Hin]; [congruence |]. apply IH; auto.
Qed.

Lemma pathOf_dollar V p :
  In p (positions V) -> exists t, pathOf V p = str "$" ++ t.
Proof.
  intros Hp. apply positions_valid in Hp.
  destruct (locate_path_shape p V (str "root") (str "$") Hp) as (t & E & _).
  now exists t.
Qed.




(** C6, the claim as stated fails: with the tree of [{"$x": 1}], the
    search string ["$.$x"] matches the entry while the same string
    without the ["$."] prefix, ["$x"], is used as it is and matches
    nothing. *)
Lemma search_prefix_matters :
  searchOutcome (setSearchPath (str "$.$x") (stateWithTree sampleDollarKey))
  <> searchOutcome (setSearchPath (str "$x") (stateWithTree sampleDollarKey)).
Proof.
  intros H. apply (f_equal (fun o => snd (fst o))) in H.
  vm_compute in H. discriminate.
Qed.

(** C6, amended: the search matches the nodes against the trimmed search
    string, taken as it is when it starts with ["$"] and with ["$."]
    prepended otherwise; the outcome is unchanged by leading and trailing
    whitespace; and, when the trimmed string is not empty and does not
    start with ["$"], the outcome is the same with ["$."] prepended to
    it. *)
Theorem handleSearch_normalization st s ws1 ws2 :
  allWhiteSpace ws1 -> allWhiteSpace ws2 ->
  matchedNode (st_nodes st) s
  = find (fun n =>
            str_eqb (path (data n))
              (if startsWith (trim s) (str "$") then trim s
               else str "$." ++ trim s))
         (st_nodes st)
  /\ searchOutcome (setSearchPath (ws1 ++ s ++ ws2) st)
     = searchOutcome (setSearchPath s st)
  /\ (trim s <> [] -> startsWith (trim s) (str "$") = false ->
      searchOutcome (setSearchPath (str "$." ++ trim s) st)
      = searchOutcome (setSearchPath s st)).
Proof.
  intros H1 H2. split; [reflexivity | split].
  - apply searchOutcome_ext; unfold normalizedPath;
      now rewrite trim_ws by assumption.
  - intros Hne Hd.
    assert (E : trim (str "$." ++ trim s) = str "$." ++ trim s)
      by (apply trim_dollar_prefix; [assumption | apply trim_idem_end]).
    apply searchOutcome_ext; unfold normalizedPath; rewrite E.
    + destruct (trim s); [congruence | reflexivity].
    + now rewrite Hd.
Qed.

Lemma handleSearch_normalization_witness :
  allWhiteSpace (str " ")
  /\ searchOutcome (setSearchPath (str " " ++ str "a[0]" ++ str " ")
                     (stateWithTree sampleNested))
     = searchOutcome (setSearchPath (str "a[0]") (stateWithTree sampleNested))
  /\ searchOutcome (setSearchPath (str "$." ++ trim (str "a[0]"))
                     (stateWithTree sampleNested))
     = searchOutcome (setSearchPath (str "a[0]") (stateWithTree sampleNested)).
Proof.
  assert (W : allWhiteSpace (str " "))
    by (repeat constructor).
  split; [exact W |].
  destruct (handleSearch_normalization (stateWithTree sampleNested)
              (str "a[0]") (str " ") (str " ") W W) as (_ & Hws & Hpre).
  split; [exact Hws |].
  apply Hpre; [discriminate | reflexivity].
Defined.

(** C9: when the search string is empty after trimming, the search
    clears the status text, resets the highlight flag of every node and
    leaves everything else of the nodes as it was, and sends nothing to
    the viewport; the cleared status differs from both "Match found!"
    and "No match found", which differ from each other, and every search
    with a string that is not empty after trimming reports one of these
    two. *)
Theorem handleSearch_clear st :
  trim (st_searchPath st) = [] ->
  st_searchResult (fst (handleSearch st)) = []
  /\ st_nodes (fst (handleSearch st))
     = map (setHighlighted false) (st_nodes st)
  /\ Forall (fun n => isHighlighted (data n) = false)
            (st_nodes (fst (handleSearch st)))
  /\ snd (handleSearch st) = None
  /\ [] <> str "Match found!"
  /\ [] <> str "No match found"
  /\ str "Match found!" <> str "No match found"
  /\ (forall st', trim (st_searchPath st') <> [] ->
        (matchedNode (st_nodes st') (st_searchPath st') <> None
         /\ st_searchResult (fst (handleSearch st')) = str "Match found!")
        \/ (matchedNode (st_nodes st') (st_searchPath st') = None
            /\ st_searchResult (fst (handleSearch st'))
               = str "No match found")).
Proof.
  intros He. unfold handleSearch at 1 2 3 4. rewrite He; simpl.
  repeat split; try discriminate.
  - apply Forall_map, Forall_forall. reflexivity.
  - intros st' Hne. unfold handleSearch.
    destruct (trim (st_searchPath st')) eqn:E; [congruence |]. simpl.
    destruct (matchedNode (st_nodes st') (st_searchPath st')).
    + left. split; [discriminate | reflexivity].
    + right. split; reflexivity.
Qed.

Lemma handleSearch_clear_witness :
  trim (str "  ") = []
  /\ st_searchResult
       (fst (handleSearch (setSearchPath (str "  ")
                             (stateWithTree sampleNested))))
     = [].
Proof.
  split; [reflexivity |].
  apply (handleSearch_clear
           (setSearchPath (str "  ") (stateWithTree sampleNested))).
  reflexivity.
Defined.

(* ================================================================== *)
(** ** The layout changes positions only *)

Lemma setPosition_frame nodes nodeId p :
  map id (setPosition nodes nodeId p) = map id nodes
  /\ map data (setPosition nodes nodeId p) = map data nodes.
Proof.
  induction nodes as [|n r [IH1 IH2]]; simpl; auto.
  destruct (str_eqb (id n) nodeId); simpl; [auto |].
  now rewrite IH1, IH2.
Qed.

Lemma placeLevel_frame levelNum len : forall nodeIds index nodes,
  map id (placeLevel levelNum len nodeIds index nodes) = map id nodes
  /\ map data (placeLevel levelNum len nodeIds index nodes) = map data nodes.
Proof.
  induction nodeIds as [|i r IH]; intros index nodes; simpl; auto.
  destruct (IH (S index)
              (setPosition nodes i (levelPosition index len levelNum)))
    as [-> ->].
  apply setPosition_frame.
Qed.

Lemma placeLevels_frame : forall lv nodes,
  map id (placeLevels lv nodes) = map id nodes
  /\ map data (placeLevels lv nodes) = map data nodes.
Proof.
  unfold placeLevels.
  induction lv as [|[l ids] lv IH]; intros nodes; simpl; auto.
  destruct (IH (placeLevel l (length ids) ids 0 nodes)) as [-> ->].
  apply placeLevel_frame.
Qed.

Lemma layoutNodes_frame nodes edges :
  map id (layoutNodes nodes edges) = map id nodes
  /\ map data (layoutNodes nodes edges) = map data nodes.
Proof.
  unfold layoutNodes. destruct (computeLevels nodes edges); auto.
  apply placeLevels_frame.
Qed.

(* ================================================================== *)
(** ** The visualize action *)

(** Counterexample to C7 as stated: the text of 2500 arrays nested in
    one another parses, and on an engine whose call stack gives out
    during the recursion of [createTree] the visualize action ends in the
    [catch] clause: the error message is not cleared, it reads
    "Invalid JSON: Maximum call stack size exceeded". *)
Lemma handleVisualize_error_after_parse :
  parseNestedArrays (st_jsonInput (stateWithInput (nestedArraysText 2499)))
  = inl (nestedArrays 2499)
  /\ st_error (handleVisualize parseNestedArrays sampleEngine
                 (stateWithInput (nestedArraysText 2499)))
     = str "Invalid JSON: Maximum call stack size exceeded"
  /\ st_error (handleVisualize parseNestedArrays sampleEngine
                 (stateWithInput (nestedArraysText 2499)))
     <> []
  /\ st_nodes (handleVisualize parseNestedArrays sampleEngine
                 (stateWithInput (nestedArraysText 2499)))
     = [].
Proof.
  assert (Hparse : parseNestedArrays (nestedArraysText 2499)
                   = inl (nestedArrays 2499)) by (vm_compute; reflexivity).
  assert (Hthrow : sampleEngine (nestedArrays 2499)
                   = Some (str "Maximum call stack size exceeded"))
    by (vm_compute; reflexivity).
  unfold handleVisualize, stateWithInput; cbn [st_jsonInput].
  rewrite Hparse, Hthrow; cbn [st_error st_nodes].
  repeat split. discriminate.
Qed.

(** C7, amended: when the input fails to parse, the visualize action sets
    the error message to "Invalid JSON: " followed by the parser's
    message and leaves the node and edge state empty.  When the input
    parses and the tree is built and laid out, the error message is
    cleared and the node and edge state is the whole tree.  When the
    input parses and building or laying out the tree raises an
    exception, the error message is "Invalid JSON: " followed by the
    message of that exception, and the node and edge state is empty
    too. *)
Theorem handleVisualize_error JSON_parse buildThrows st :
  match JSON_parse (st_jsonInput st) with
  | inr message =>
      st_error (handleVisualize JSON_parse buildThrows st)
      = str "Invalid JSON: " ++ message
      /\ (exists pre, st_error (handleVisualize JSON_parse buildThrows st)
                      = pre ++ message)
      /\ st_nodes (handleVisualize JSON_parse buildThrows st) = []
      /\ st_edges (handleVisualize JSON_parse buildThrows st) = []
  | inl parsed =>
      match buildThrows parsed with
      | None =>
          st_error (handleVisualize JSON_parse buildThrows st) = []
          /\ st_nodes (handleVisualize JSON_parse buildThrows st)
             = layoutNodes (fst (createTree_default (st_isDark st) parsed))
                           (snd (createTree_default (st_isDark st) parsed))
          /\ st_edges (handleVisualize JSON_parse buildThrows st)
             = snd (createTree_default (st_isDark st) parsed)
      | Some message =>
          st_error (handleVisualize JSON_parse buildThrows st)
          = str "Invalid JSON: " ++ message
          /\ st_nodes (handleVisualize JSON_parse buildThrows st) = []
          /\ st_edges (handleVisualize JSON_parse buildThrows st) = []
      end
  end.
Proof.
  unfold handleVisualize.
  destruct (JSON_parse (st_jsonInput st)) as [parsed | message].
  - destruct (buildThrows parsed) as [message |].
    + repeat split.
    + destruct (createTree_default (st_isDark st) parsed); repeat split.
  - repeat split. now exists (str "Invalid JSON: ").
Qed.

(** C10: a visualize action whose input parses resets the search status
    text to the empty string, every node of the new node list has its
    highlight flag off, and the text of the search field is left as it
    was; the new node list is the laid-out tree of the parsed value,
    and is empty when building it raised an exception. *)
Theorem handleVisualize_resets_search JSON_parse buildThrows st parsed :
  JSON_parse (st_jsonInput st) = inl parsed ->
  st_searchResult (handleVisualize JSON_parse buildThrows st) = []
  /\ Forall (fun n => isHighlighted (data n) = false)
            (st_nodes (handleVisualize JSON_parse buildThrows st))
  /\ st_nodes (handleVisualize JSON_parse buildThrows st)
     = match buildThrows parsed with
       | None =>
           layoutNodes (fst (createTree_default (st_isDark st) parsed))
                       (snd (createTree_default (st_isDark st) parsed))
       | Some _ => []
       end
  /\ st_searchPath (handleVisualize JSON_parse buildThrows st)
     = st_searchPath st.
Proof.
  intros Hparse. unfold handleVisualize. rewrite Hparse.
  destruct (buildThrows parsed) as [message |].
  { simpl. repeat split. constructor. }
  destruct (createTree_default (st_isDark st) parsed) as [ns es] eqn:E.
  simpl. repeat split.
  rewrite <- (Forall_map data (fun d => isHighlighted d = false)).
  destruct (layoutNodes_frame ns es) as [_ ->].
  replace ns with (fst (createTree_default (st_isDark st) parsed))
    by now rewrite E.
  rewrite createTree_default_spec; simpl.
  rewrite map_map. apply Forall_map, Forall_forall. intros q _.
  unfold nodeOf, nodeAt.
  destruct (locate parsed (str "root") (str "$") q) as [[l cp] c].
  reflexivity.
Qed.

Lemma handleVisualize_resets_search_witness :
  sampleParse (st_jsonInput (stateWithInput (str "[null]")))
  = inl (JArray [JNull])
  /\ st_searchResult
       (handleVisualize sampleParse sampleEngine
          (stateWithInput (str "[null]")))
     = []
  /\ st_searchPath
       (handleVisualize sampleParse sampleEngine
          (stateWithInput (str "[null]")))
     = str "a".
Proof.
  split; [reflexivity |].
  destruct (handleVisualize_resets_search sampleParse sampleEngine
              (stateWithInput (str "[null]")) (JArray [JNull])
              eq_refl) as (H1 & _ & _ & H2).
  split; [exact H1 | exact H2].
Defined.

(* ================================================================== *)
(** ** The level table *)

Lemma levels_push_ascending l x lv :
  ascending lv -> ascending (levels_push l x lv).
Proof.
  induction lv as [|[l0 ids] lv IH]; simpl; intros H; auto.
  destruct H as [Hall Hasc].
  destruct (l =? l0) eqn:E1; [| destruct (l <? l0) eqn:E2]; simpl.
  - split; auto.
  - apply Nat.ltb_lt in E2. split; [| split; auto].
    constructor; simpl; auto.
    eapply Forall_impl; [| exact Hall]. simpl; intros; lia.
  - apply Nat.eqb_neq in E1. apply Nat.ltb_ge in E2.
    split; auto.
    clear IH Hasc. induction lv as [|[l1 ids1] lv IH']; simpl.
    + constructor; simpl; auto. lia.
    + inversion Hall as [|? ? H1 H2]; subst; simpl in *.
      destruct (l =? l1); [| destruct (l <? l1)];
        repeat constructor; simpl; auto; lia.
Qed.

Lemma getLevel_above lv d :
  Forall (fun e => d < fst e) lv -> getLevel lv d = [].
Proof.
  unfold getLevel. induction 1 as [|e lv He _ IH]; simpl; auto.
  destruct (fst e =? d) eqn:E; [apply Nat.eqb_eq in E; lia | exact IH].
Qed.

Lemma getLevel_cons e lv d :
  getLevel (e :: lv) d = if fst e =? d then snd e else getLevel lv d.
Proof. unfold getLevel; simpl. destruct (fst e =? d); reflexivity. Qed.

Lemma getLevel_push l x lv d :
  ascending lv ->
  getLevel (levels_push l x lv) d
  = if d =? l then getLevel lv l ++ [x] else getLevel lv d.
Proof.
  induction lv as [|[l0 ids] lv IH]; simpl; intros H.
  - rewrite getLevel_cons; simpl. rewrite (Nat.eqb_sym l d).
    destruct (d =? l); reflexivity.
  - destruct H as [Hall Hasc]. specialize (IH Hasc).
    destruct (l =? l0) eqn:E1; [| destruct (l <? l0) eqn:E2].
    + apply Nat.eqb_eq in E1; subst l0. rewrite !getLevel_cons; simpl.
      rewrite Nat.eqb_refl, (Nat.eqb_sym l d).
      destruct (d =? l); reflexivity.
    + apply Nat.ltb_lt in E2.
      rewrite (getLevel_cons (l, [x])); simpl. rewrite (Nat.eqb_sym l d).
      destruct (d =? l) eqn:E3; [| reflexivity].
      rewrite (getLevel_above ((l0, ids) :: lv) l); [reflexivity |].
      constructor; simpl; auto.
      eapply Forall_impl; [| exact Hall]. simpl; intros; lia.
    + rewrite !getLevel_cons; simpl.
      destruct (d =? l) eqn:E3.
      * apply Nat.eqb_eq in E3; subst d. rewrite (Nat.eqb_sym l0 l), E1.
        exact IH.
      * destruct (l0 =? d); [reflexivity | exact IH].
Qed.

Lemma levels_push_perm l x lv :
  Permutation (concat (map snd (levels_push l x lv)))
              (x :: concat (map snd lv)).
Proof.
  induction lv as [|[l0 ids] lv IH]; simpl; auto.
  destruct (l =? l0); [| destruct (l <? l0)]; simpl; auto.
  - rewrite <- app_assoc; simpl. symmetry. apply Permutation_middle.
  - rewrite IH. symmetry. apply Permutation_middle.
Qed.

Lemma pushAll_snoc visits e :
  pushAll (visits ++ [e]) = levels_push (fst e) (snd e) (pushAll visits).
Proof. unfold pushAll. now rewrite fold_left_app. Qed.

Lemma pushAll_spec visits :
  ascending (pushAll visits)
  /\ (forall d, getLevel (pushAll visits) d = levelOf visits d)
  /\ Permutation (concat (map snd (pushAll visits))) (map snd visits).
Proof.
  induction visits as [|e visits (Hasc & Hget & Hperm)] using rev_ind.
  - repeat split; auto.
  - rewrite pushAll_snoc. split; [| split].
    + now apply levels_push_ascending.
    + intros d. rewrite getLevel_push, !Hget by assumption.
      unfold levelOf. rewrite filter_app, map_app; simpl.
      rewrite (Nat.eqb_sym d (fst e)).
      destruct (fst e =? d) eqn:E; simpl.
      * apply Nat.eqb_eq in E. now subst.
      * now rewrite app_nil_r.
    + rewrite levels_push_perm, Hperm, map_app; simpl.
      apply Permutation_cons_append.
Qed.

Lemma getLevel_In lv d :
  getLevel lv d <> [] -> In (d, getLevel lv d) lv.
Proof.
  unfold getLevel. destruct (find _ lv) as [[d' ids]|] eqn:E; [| congruence].
  intros _. apply find_some in E. destruct E as [Hin E]; simpl in *.
  apply Nat.eqb_eq in E. now subst.
Qed.

(* ================================================================== *)
(** ** Assigning positions *)

Lemma placeLevel_assign levelNum len : forall nodeIds index nodes,
  placeLevel levelNum len nodeIds index nodes
  = fold_left (fun ns a => setPosition ns (fst a) (snd a))
      (levelAssign levelNum len nodeIds index) nodes.
Proof.
  induction nodeIds as [|i r IH]; intros index nodes; simpl; auto.
Qed.

Lemma placeLevels_assign : forall lv nodes,
  placeLevels lv nodes
  = fold_left (fun ns a => setPosition ns (fst a) (snd a))
      (assignments lv) nodes.
Proof.
  unfold placeLevels, assignments.
  induction lv as [|[l ids] lv IH]; intros nodes; simpl; auto.
  now rewrite fold_left_app, IH, placeLevel_assign.
Qed.

Lemma levelAssign_ids levelNum len : forall nodeIds index,
  map fst (levelAssign levelNum len nodeIds index) = nodeIds.
Proof.
  induction nodeIds as [|i r IH]; intros index; simpl; auto.
  now rewrite IH.
Qed.

Lemma assignments_ids lv : map fst (assignments lv) = concat (map snd lv).
Proof.
  unfold assignments. induction lv as [|[l ids] lv IH]; simpl; auto.
  now rewrite map_app, levelAssign_ids, IH.
Qed.

Lemma levelAssign_In levelNum len : forall nodeIds index k i,
  nth_error nodeIds k = Some i ->
  In (i, levelPosition (index + k) len levelNum)
     (levelAssign levelNum len nodeIds index).
Proof.
  induction nodeIds as [|j r IH]; intros index [|k] i H; simpl in *;
    try discriminate.
  - inversion H; subst. rewrite Nat.add_0_r. auto.
  - right. rewrite Nat.add_succ_r. now apply (IH (S index)).
Qed.

Lemma assignments_In lv d ids k i :
  In (d, ids) lv -> nth_error ids k = Some i ->
  In (i, levelPosition k (length ids) d) (assignments lv).
Proof.
  intros Hin Hk. unfold assignments. apply in_flat_map.
  exists (d, ids). split; auto. simpl.
  now apply (levelAssign_In d (length ids) ids 0 k i).
Qed.

Lemma setPosition_other nodes j p k n :
  id n <> j -> nth_error nodes k = Some n ->
  nth_error (setPosition nodes j p) k = Some n.
Proof.
  revert k; induction nodes as [|m r IH]; intros [|k] Hne H; simpl in *;
    try discriminate.
  - inversion H; subst.
    destruct (str_eqb (id n) j) eqn:E; [| reflexivity].
    apply str_eqb_eq in E. congruence.
  - destruct (str_eqb (id m) j); simpl; auto.
Qed.

Lemma setPosition_hit nodes p k n :
  NoDup (map id nodes) -> nth_error nodes k = Some n ->
  nth_error (setPosition nodes (id n) p) k
  = Some {| id := id n; data := data n; position := p |}.
Proof.
  revert k; induction nodes as [|m r IH]; intros [|k] Hnd H; simpl in *;
    try discriminate.
  - inversion H; subst. now rewrite str_eqb_refl.
  - inversion Hnd as [|? ? Hnot Hnd']; subst.
    destruct (str_eqb (id m) (id n)) eqn:E.
    + exfalso. apply Hnot. apply str_eqb_eq in E. rewrite E.
      apply in_map. eapply nth_error_In; eauto.
    + simpl. now apply IH.
Qed.

Lemma assign_others : forall asg nodes k n,
  (forall a, In a asg -> fst a <> id n) ->
  nth_error nodes k = Some n ->
  nth_error (fold_left (fun ns a => setPosition ns (fst a) (snd a)) asg nodes)
            k = Some n.
Proof.
  induction asg as [|a asg IH]; intros nodes k n Hall H; simpl; auto.
  apply IH; [intros; apply Hall; simpl; auto |].
  apply setPosition_other; auto.
  intros E. apply (Hall a); simpl; auto.
Qed.

(** With distinct ids on both sides, the node that an assignment names
    ends up at the assigned position, the rest of it unchanged. *)
Lemma assign_spec : forall asg nodes k n p,
  NoDup (map fst asg) -> NoDup (map id nodes) ->
  In (id n, p) asg -> nth_error nodes k = Some n ->
  nth_error (fold_left (fun ns a => setPosition ns (fst a) (snd a)) asg nodes)
            k
  = Some {| id := id n; data := data n; position := p |}.
Proof.
  induction asg as [|[j pj] asg IH]; intros nodes k n p Hnd Hids Hin Hk;
    simpl in *; [tauto |].
  inversion Hnd as [|? ? Hnot Hnd']; subst.
  destruct Hin as [E | Hin].
  - inversion E; subst.
    apply assign_others; [| now apply setPosition_hit].
    intros a Ha E'. simpl in E'. apply Hnot. rewrite <- E'.
    now apply in_map.
  - apply IH; auto.
    + now rewrite (proj1 (setPosition_frame nodes j pj)).
    + apply setPosition_other; auto.
      intros E. apply Hnot. rewrite <- E.
      change (id n) with (fst (id n, p)). now apply in_map.
Qed.

(* ================================================================== *)
(** ** Child positions *)

Lemma pos_eqb_eq : forall a b, pos_eqb a b = true <-> a = b.
Proof.
  induction a as [|i a IH]; intros [|j b]; simpl;
    try (split; [discriminate | discriminate]); try tauto.
  rewrite andb_true_iff, Nat.eqb_eq, IH.
  split; [intros [-> ->]; reflexivity | intros H; inversion H; auto].
Qed.

Lemma validPos_snoc : forall p V i c,
  validPos V p ->
  nth_error (subvalues (subvalueAt V p)) i = Some c ->
  validPos V (p ++ [i]) /\ subvalueAt V (p ++ [i]) = c.
Proof.
  induction p as [|j p IH]; intros V i c Hv Hc; simpl in *.
  - rewrite Hc. auto.
  - destruct (nth_error (subvalues V) j) as [c'|]; [| tauto].
    now apply IH.
Qed.

Lemma index_of_snoc : forall p V i,
  validPos V p ->
  index_of V (p ++ [i])
  = index_of V p
    + S (list_sum (map size (firstn i (subvalues (subvalueAt V p))))).
Proof.
  induction p as [|j p IH]; intros V i Hv; simpl in *.
  - destruct (nth_error (subvalues V) i); simpl; lia.
  - destruct (nth_error (subvalues V) j) as [c'|]; [| tauto].
    rewrite (IH c' i Hv). lia.
Qed.

Lemma childPositions_app : forall pss1 pss2 i,
  childPositions i (pss1 ++ pss2)
  = childPositions i pss1 ++ childPositions (i + length pss1) pss2.
Proof.
  induction pss1 as [|ps pss1 IH]; intros pss2 i; simpl.
  - now rewrite Nat.add_0_r.
  - rewrite IH, <- app_assoc, Nat.add_succ_r. reflexivity.
Qed.

Lemma removelast_cons (i : nat) (q : pos) :
  q <> [] -> removelast (i :: q) = i :: removelast q.
Proof. destruct q; [congruence | reflexivity]. Qed.

Lemma isChildOf_cons i p j q :
  q <> [] -> isChildOf (i :: p) (j :: q) = (j =? i) && isChildOf p q.
Proof.
  intros Hq. unfold isChildOf. rewrite (removelast_cons j q Hq).
  destruct q; [congruence | reflexivity].
Qed.

(** The positions directly below the root are [[0]], [[1]], ... *)
Lemma filter_children_root : forall vals i,
  filter (isChildOf []) (childPositions i (map positions vals))
  = map (fun j => [j]) (seq i (length vals)).
Proof.
  induction vals as [|c vals IH]; intros i; simpl; auto.
  rewrite filter_app, IH, (positions_eq c); simpl. f_equal.
  rewrite filter_none; [reflexivity |].
  intros q Hq. apply in_map_iff in Hq.
  destruct Hq as (q' & <- & Hq'). apply childPositions_nonempty in Hq'.
  unfold isChildOf. rewrite (removelast_cons i q' Hq'). reflexivity.
Qed.

Lemma filter_children_off i0 p i : forall pss,
  (forall j, i <= j < i + length pss -> j <> i0) ->
  filter (isChildOf (i0 :: p)) (childPositions i pss) = [].
Proof.
  intros pss Hoff. apply filter_none. intros q Hq.
  apply in_childPositions in Hq.
  destruct Hq as (j & q' & ps & -> & Hj & _).
  assert (Hlt : j < length pss) by (apply nth_error_Some; congruence).
  unfold isChildOf. destruct q' as [|a q']; [reflexivity |].
  rewrite removelast_cons by discriminate. simpl.
  destruct (i + j =? i0) eqn:E; [| reflexivity].
  apply Nat.eqb_eq in E. exfalso. apply (Hoff (i + j)); lia.
Qed.

(** The positions directly below [p], as they occur among the positions
    of [V]. *)
Lemma filter_children : forall p V,
  validPos V p ->
  filter (isChildOf p) (tl (positions V)) = childrenOf V p.
Proof.
  induction p as [|i0 p IH]; intros V Hv.
  - rewrite positions_eq; simpl. rewrite filter_children_root.
    unfold childrenOf; simpl. reflexivity.
  - simpl in Hv. unfold childrenOf. simpl subvalueAt.
    destruct (nth_error (subvalues V) i0) as [c|] eqn:Hc; [| tauto].
    destruct (nth_error_split _ _ Hc) as (pre & post & Evals & Hlen).
    rewrite positions_eq; simpl tl.
    rewrite Evals, map_app, childPositions_app; simpl.
    rewrite !filter_app, length_map, Hlen.
    rewrite (filter_children_off i0 p 0),
            (filter_children_off i0 p (S i0)); simpl.
    + rewrite app_nil_r, (positions_eq c); simpl.
      rewrite filter_map_swap.
      rewrite (filter_ext_in _ (isChildOf p)).
      * specialize (IH c Hv). rewrite positions_eq in IH; simpl in IH.
        rewrite IH. unfold childrenOf. now rewrite map_map.
      * intros q Hq. apply childPositions_nonempty in Hq.
        rewrite isChildOf_cons by assumption.
        now rewrite Nat.eqb_refl.
    + intros j Hj. lia.
    + intros j Hj. rewrite length_map in Hj. lia.
Qed.

(* ================================================================== *)
(** ** [findLevel] on the tree of a value *)

Lemma forEachM_filter {A S : Type} (c : A -> bool) (f : A -> S -> option S) :
  forall l s,
    forEachM (fun a s => if c a then f a s else Some s) l s
    = forEachM f (filter c l) s.
Proof.
  induction l as [|a l IH]; intros s; simpl; auto.
  destruct (c a); simpl; auto.
  destruct (f a s); auto.
Qed.

(** The edges that leave the node of [p] lead to the nodes of the
    positions directly below [p], in order. *)
Lemma edges_from V p :
  In p (positions V) ->
  filter (fun e => str_eqb (source e) (idOf V p))
         (map (edgeAt V 0) (tl (positions V)))
  = map (edgeAt V 0) (childrenOf V p).
Proof.
  intros Hp. rewrite filter_map_swap. f_equal.
  rewrite <- (filter_children p V) by now apply positions_valid.
  apply filter_ext_in. intros q Hq.
  apply in_tl_positions in Hq. destruct Hq as [Hq Hne].
  apply eq_true_iff_eq. unfold edgeAt, idOf, isChildOf; simpl.
  destruct q as [|a q]; [congruence |].
  rewrite str_eqb_eq, pos_eqb_eq. split.
  - intros E. apply showNat_inj in E.
    apply (index_of_inj V); auto. now apply positions_parent.
  - now intros ->.
Qed.

Lemma visits_ids V : map snd (visits V) = map nodeIdStr (seq 0 (size V)).
Proof.
  unfold visits, idOf. rewrite map_map; simpl.
  now rewrite <- positions_index, map_map.
Qed.

Lemma firstn_snoc {A : Type} (l : list A) k a :
  nth_error l k = Some a -> firstn (S k) l = firstn k l ++ [a].
Proof.
  revert k; induction l as [|b l IH]; intros [|k] H; simpl in *;
    try discriminate.
  - now inversion H.
  - f_equal. now apply IH.
Qed.

Lemma visits_nth V p :
  In p (positions V) ->
  nth_error (visits V) (index_of V p) = Some (length p, idOf V p).
Proof.
  intros Hp. unfold visits.
  now rewrite nth_error_map, (nth_error_positions V p Hp).
Qed.

Lemma visitState_step V p :
  In p (positions V) ->
  {| levels := levels_push (length p) (idOf V p)
                 (levels (visitState V (index_of V p)));
     visited := visited (visitState V (index_of V p)) ++ [idOf V p] |}
  = visitState V (S (index_of V p)).
Proof.
  intros Hp. unfold visitState; cbn [levels visited].
  rewrite (firstn_snoc _ _ _ (visits_nth V p Hp)).
  now rewrite pushAll_snoc, map_app.
Qed.

Lemma firstn_seq_lt : forall n k a j,
  In j (firstn k (seq a n)) -> a <= j < a + k.
Proof.
  induction n as [|n IH]; intros [|k] a j; simpl; try tauto.
  intros [<- | H]; [lia |]. apply IH in H. lia.
Qed.

Lemma visitState_fresh V p :
  In p (positions V) ->
  has (visited (visitState V (index_of V p))) (idOf V p) = false.
Proof.
  intros Hp. unfold has, visitState; cbn [visited].
  destruct (existsb _ _) eqn:E; [| reflexivity].
  apply existsb_exists in E. destruct E as (i & Hi & E).
  apply str_eqb_eq in E; subst i.
  rewrite <- firstn_map, visits_ids, firstn_map in Hi.
  apply in_map_iff in Hi. destruct Hi as (j & E & Hj).
  apply nodeIdStr_inj in E. apply firstn_seq_lt in Hj. lia.
Qed.

Lemma size_child v c : In c (subvalues v) -> size c < size v.
Proof.
  rewrite (size_eq v). generalize (subvalues v) as l.
  induction l as [|d l IH]; simpl; intros H; [tauto |].
  destruct H as [-> | H]; [lia | specialize (IH H); lia].
Qed.

Section FindLevelOnTree.

Variable V : JsonValue.

Lemma findLevel_children v p fuel :
  validPos V p -> subvalueAt V p = v ->
  forall suf pre,
    pre ++ suf = subvalues v ->
    Forall (visitsSubtree V) suf ->
    Forall (fun c => size c <= fuel) suf ->
    forEachM
      (fun e s => findLevel fuel (treeEdges V) (target e) (S (length p)) s)
      (map (edgeAt V 0)
           (map (fun i => p ++ [i]) (seq (length pre) (length suf))))
      (visitState V (S (index_of V p + list_sum (map size pre))))
    = Some (visitState V
              (S (index_of V p + list_sum (map size pre)
                  + list_sum (map size suf)))).
Proof.
  intros Hv Hsub.
  induction suf as [|c suf IH]; intros pre Hsplit Hall Hfuel; simpl.
  - now rewrite Nat.add_0_r.
  - apply Forall_cons_iff in Hall. destruct Hall as [Hc Hrest].
    apply Forall_cons_iff in Hfuel. destruct Hfuel as [Hcf Hrestf].
    assert (Hnth : nth_error (subvalues (subvalueAt V p)) (length pre)
                   = Some c).
    { rewrite Hsub, <- Hsplit, nth_error_app2, Nat.sub_diag by lia.
      reflexivity. }
    assert (Hoff : firstn (length pre) (subvalues (subvalueAt V p)) = pre).
    { rewrite Hsub, <- Hsplit, firstn_app, Nat.sub_diag, firstn_all; simpl.
      now rewrite app_nil_r. }
    destruct (validPos_snoc p V (length pre) c Hv Hnth) as [Hv' Hsub'].
    assert (Hidx : index_of V (p ++ [length pre])
                   = S (index_of V p + list_sum (map size pre))).
    { rewrite (index_of_snoc p V (length pre) Hv), Hoff. lia. }
    rewrite <- Hidx.
    replace (S (length p)) with (length (p ++ [length pre]))
      by (rewrite length_app; simpl; lia).
    pose proof (Hc (p ++ [length pre]) fuel Hv' Hsub' Hcf) as Hc'.
    unfold idOf in Hc'. rewrite Hc'.
    replace (length (p ++ [length pre])) with (S (length p))
      by (rewrite length_app; simpl; lia).
    specialize (IH (pre ++ [c])).
    replace (length (pre ++ [c])) with (S (length pre)) in IH
      by (rewrite length_app; simpl; lia).
    replace (index_of V (p ++ [length pre]) + size c)
      with (S (index_of V p + list_sum (map size (pre ++ [c]))))
      by (rewrite Hidx, map_app, list_sum_app; simpl; lia).
    rewrite IH; auto.
    + f_equal. f_equal. rewrite map_app, list_sum_app; simpl. lia.
    + now rewrite <- app_assoc.
Qed.

Lemma findLevel_subtree : forall v, visitsSubtree V v.
Proof.
  induction v as [v IHv] using JsonValue_tree_ind.
  intros p fuel Hv Hsub Hfuel.
  assert (Hp : In p (positions V)) by now apply positions_valid.
  destruct fuel as [|fuel]; [rewrite size_eq in Hfuel; lia |].
  cbn [findLevel]. rewrite (visitState_fresh V p Hp).
  cbv zeta. rewrite (visitState_step V p Hp).
  rewrite (forEachM_filter
             (fun e => str_eqb (source e) (idOf V p))
             (fun e s => findLevel fuel (treeEdges V) (target e) (S (length p)) s)).
  unfold treeEdges at 2. rewrite (edges_from V p Hp).
  unfold childrenOf. rewrite Hsub.
  pose proof (findLevel_children v p fuel Hv Hsub (subvalues v) []) as H.
  simpl in H. rewrite Nat.add_0_r in H. rewrite H; auto.
  - f_equal. f_equal. rewrite (size_eq v). lia.
  - apply Forall_forall. intros c Hc.
    apply size_child in Hc. lia.
Qed.

End FindLevelOnTree.

(* ================================================================== *)
(** ** The layout of a tree *)

Lemma createTree_edges dark V : snd (createTree_default dark V) = treeEdges V.
Proof. now rewrite createTree_default_spec. Qed.

Lemma nodeIds_NoDup n : NoDup (map nodeIdStr (seq 0 n)).
Proof.
  apply NoDup_map_in; [apply seq_NoDup |].
  intros a b _ _. apply nodeIdStr_inj.
Qed.

Lemma find_filter {A : Type} (f : A -> bool) (l : list A) (a : A) :
  filter f l = [a] -> find f l = Some a.
Proof.
  induction l as [|b l IH]; simpl; [discriminate |].
  destruct (f b); [intros H; now inversion H | exact IH].
Qed.

Lemma rootNode_tree dark V :
  rootNode (fst (createTree_default dark V)) (snd (createTree_default dark V))
  = Some (nodeOf dark V []).
Proof. apply find_filter, noIncoming_root. Qed.

Lemma visits_length V : length (visits V) = size V.
Proof. unfold visits. now rewrite length_map, positions_length. Qed.

Lemma treeEdges_length V : S (length (treeEdges V)) = size V.
Proof.
  unfold treeEdges. rewrite length_map, <- positions_length.
  rewrite positions_eq. reflexivity.
Qed.

(** On the tree of [V], the first phase of [layoutNodes] visits every
    node, in pre-order, each at the level of its depth. *)
Lemma computeLevels_tree dark V :
  computeLevels (fst (createTree_default dark V))
                (snd (createTree_default dark V))
  = Some {| levels := pushAll (visits V); visited := map snd (visits V) |}.
Proof.
  unfold computeLevels. rewrite rootNode_tree, nodeOf_id, createTree_edges.
  change (nodeIdStr (index_of V [])) with (idOf V []).
  pose proof (findLevel_subtree V V [] (layoutFuel (treeEdges V))) as H.
  change (visitState V (index_of V [])) with emptyLayout in H.
  change (length (@nil nat)) with 0 in H.
  change (index_of V [] + size V) with (size V) in H.
  assert (Hfuel : size V <= layoutFuel (treeEdges V))
    by (unfold layoutFuel; pose proof (treeEdges_length V); lia).
  rewrite (H I eq_refl Hfuel).
  unfold visitState. rewrite <- (visits_length V), firstn_all. reflexivity.
Qed.

Lemma levelOf_visits V d :
  levelOf (visits V) d
  = map (idOf V) (filter (fun q => length q =? d) (positions V)).
Proof.
  unfold levelOf, visits. rewrite filter_map_swap, map_map. reflexivity.
Qed.

Lemma nth_filter {A : Type} (f : A -> bool) (l : list A) k a :
  nth_error l k = Some a -> f a = true ->
  nth_error (filter f l) (length (filter f (firstn k l))) = Some a.
Proof.
  intros Hk Ha. destruct (nth_error_split _ _ Hk) as (l1 & l2 & -> & <-).
  rewrite firstn_app, Nat.sub_diag, firstn_all; simpl.
  rewrite app_nil_r, filter_app; simpl. rewrite Ha.
  now rewrite nth_error_app2, Nat.sub_diag by lia.
Qed.

Lemma levelOf_nth V p :
  In p (positions V) ->
  nth_error (levelOf (visits V) (length p)) (indexInLevel V p)
  = Some (idOf V p).
Proof.
  intros Hp. rewrite levelOf_visits, nth_error_map. unfold indexInLevel.
  rewrite (nth_filter _ _ _ p); auto using nth_error_positions.
  apply Nat.eqb_refl.
Qed.

Lemma levelOf_length V d : length (levelOf (visits V) d) = levelSize V d.
Proof. rewrite levelOf_visits, length_map. reflexivity. Qed.

(** The node of position [p] after the layout: same id and data, placed
    by its depth and by its rank among the nodes of that depth. *)
Lemma layoutNodes_tree dark V p :
  In p (positions V) ->
  nth_error (layoutNodes (fst (createTree_default dark V))
                         (snd (createTree_default dark V)))
            (index_of V p)
  = Some {| id := id (nodeOf dark V p);
            data := data (nodeOf dark V p);
            position := levelPosition (indexInLevel V p)
                          (levelSize V (length p)) (length p) |}.
Proof.
  intros Hp. unfold layoutNodes. rewrite computeLevels_tree.
  cbn [levels]. rewrite placeLevels_assign.
  destruct (pushAll_spec (visits V)) as (_ & Hget & Hperm).
  apply assign_spec.
  - rewrite assignments_ids. apply (Permutation_NoDup (Permutation_sym Hperm)).
    rewrite visits_ids. apply nodeIds_NoDup.
  - rewrite createTree_ids. apply nodeIds_NoDup.
  - rewrite <- levelOf_length, <- Hget.
    apply assignments_In.
    + apply getLevel_In. rewrite Hget. intros E.
      pose proof (levelOf_nth V p Hp) as H. rewrite E in H.
      destruct (indexInLevel V p); discriminate.
    + rewrite Hget, nodeOf_id. now apply levelOf_nth.
  - now apply createTree_nth.
Qed.

(* ================================================================== *)
(** ** Depth and reachability *)

Lemma treeEdges_In V e :
  In e (treeEdges V) <->
  exists q, In q (positions V) /\ q <> []
            /\ source e = idOf V (removelast q) /\ target e = idOf V q
            /\ e = edgeAt V 0 q.
Proof.
  unfold treeEdges. rewrite in_map_iff. split.
  - intros (q & <- & Hq). apply in_tl_positions in Hq.
    exists q. repeat split; tauto.
  - intros (q & Hq & Hne & _ & _ & ->). exists q. split; auto.
    now apply in_tl_positions.
Qed.

Lemma walk_to V : forall p,
  In p (positions V) -> walk (treeEdges V) (idOf V []) (idOf V p) (length p).
Proof.
  induction p as [|i p IH] using rev_ind; intros Hp.
  - constructor.
  - assert (Hpar : In p (positions V)).
    { apply positions_parent in Hp. now rewrite removelast_last in Hp. }
    rewrite length_app, Nat.add_1_r.
    change (idOf V (p ++ [i])) with (target (edgeAt V 0 (p ++ [i]))).
    apply (walk_step _ _ (idOf V p)); auto.
    + apply treeEdges_In. exists (p ++ [i]).
      repeat split; auto. now destruct p.
    + unfold edgeAt, newEdge; cbn [source].
      now rewrite removelast_last.
Qed.

Lemma walk_length V b m :
  walk (treeEdges V) (idOf V []) b m ->
  exists q, In q (positions V) /\ b = idOf V q /\ length q = m.
Proof.
  induction 1 as [|b e n Hw (q & Hq & -> & Hlen) He Hsrc].
  - exists []. repeat split. rewrite positions_eq; simpl; auto.
  - apply treeEdges_In in He.
    destruct He as (q' & Hq' & Hne & Hs & Ht & _).
    exists q'. repeat split; auto.
    rewrite Hs in Hsrc. apply nodeIdStr_inj in Hsrc.
    apply (index_of_inj V) in Hsrc; auto using positions_parent.
    subst q. destruct (exists_last Hne) as (r & a & ->).
    rewrite removelast_last in Hlen. rewrite length_app; simpl. lia.
Qed.

Lemma tree_bfsDepth V p :
  In p (positions V) ->
  bfsDepth (treeEdges V) (idOf V []) (idOf V p) (length p).
Proof.
  intros Hp. split; [now apply walk_to |].
  intros m Hw. apply walk_length in Hw.
  destruct Hw as (q & Hq & E & <-).
  apply nodeIdStr_inj, (index_of_inj V) in E; auto. now subst.
Qed.

(** Whatever [findLevel] enters into [levels] is reachable from the
    root, on any edge list. *)
Lemma findLevel_reachable edges root : forall fuel nodeId level st st',
  findLevel fuel edges nodeId level st = Some st' ->
  reachable edges root nodeId ->
  (forall i, In i (concat (map snd (levels st))) -> reachable edges root i) ->
  forall i, In i (concat (map snd (levels st'))) -> reachable edges root i.
Proof.
  induction fuel as [|fuel IH]; intros nodeId level st st' H Hr Hinv;
    simpl in H; [discriminate |].
  destruct (has (visited st) nodeId); [inversion H; subst; exact Hinv |].
  revert H.
  set (st1 := {| levels := levels_push level nodeId (levels st);
                 visited := visited st ++ [nodeId] |}).
  assert (Hinv1 : forall i, In i (concat (map snd (levels st1))) ->
                            reachable edges root i).
  { intros i Hi. simpl in Hi.
    apply (Permutation_in _ (levels_push_perm level nodeId (levels st))) in Hi.
    destruct Hi as [<- | Hi]; auto. }
  clearbody st1. clear Hinv. intros H.
  assert (Hloop : forall l, incl l edges -> forall s,
            (forall i, In i (concat (map snd (levels s))) ->
                       reachable edges root i) ->
            forEachM
              (fun edge s =>
                 if str_eqb (source edge) nodeId
                 then findLevel fuel edges (target edge) (S level) s
                 else Some s) l s = Some st' ->
            forall i, In i (concat (map snd (levels st'))) ->
                      reachable edges root i).
  { induction l as [|e l IHl]; intros Hsub s Hinv Hl; simpl in Hl.
    - inversion Hl; subst; exact Hinv.
    - assert (He : In e edges) by (apply Hsub; simpl; auto).
      assert (Hl' : incl l edges) by (intros a Ha; apply Hsub; simpl; auto).
      destruct (str_eqb (source e) nodeId) eqn:E.
      + destruct (findLevel fuel edges (target e) (S level) s) as [s'|] eqn:F;
          [| discriminate].
        apply (IHl Hl' s'); auto.
        apply (IH _ _ _ _ F); auto.
        destruct Hr as (d & Hd). exists (S d).
        apply (walk_step _ _ nodeId); auto. now apply str_eqb_eq.
      + apply (IHl Hl' s); auto. }
  apply (Hloop edges (incl_refl _) st1 Hinv1 H).
Qed.

(** A node that no walk from the root reaches keeps its position, on any
    node and edge lists. *)
Lemma layoutNodes_unreachable nodes edges k n :
  nth_error nodes k = Some n ->
  (forall r, rootNode nodes edges = Some r -> ~ reachable edges (id r) (id n)) ->
  nth_error (layoutNodes nodes edges) k = Some n.
Proof.
  intros Hk Hun. unfold layoutNodes, computeLevels.
  destruct (rootNode nodes edges) as [r|] eqn:Hr; [| exact Hk].
  destruct (findLevel _ _ _ _ _) as [st|] eqn:F; [| exact Hk].
  rewrite placeLevels_assign. apply assign_others; auto.
  intros a Ha E. apply (Hun r eq_refl). rewrite <- E.
  apply (findLevel_reachable edges (id r) _ _ _ _ _ F).
  - exists 0. constructor.
  - simpl. tauto.
  - rewrite <- assignments_ids. now apply in_map.
Qed.

(** C5: on the nodes and edges [createTree] produces, [layoutNodes]
    starts from the node of the root position; the node of a position
    [p] is entered into the level table at level [length p], which is
    its breadth-first depth from the root (the root at level 0), at the
    rank [indexInLevel V p] among the [levelSize V (length p)] nodes of
    that level; it keeps its id and data and is placed at
    [x = (rank - levelSize / 2) * 200], [y = level * 150], that is at
    the rationals [(200 * rank - 100 * levelSize) / 1] and
    [(150 * level) / 1].  On any node and edge lists, a node that cannot
    be reached from the root keeps the position it had (which is
    [(0, 0)] for a node [createTree] built), and the layout of the empty
    node list is empty. *)
Theorem layoutNodes_levels dark V p :
  In p (positions V) ->
  let nodes := fst (createTree_default dark V) in
  let edges := snd (createTree_default dark V) in
  let root := nodeOf dark V [] in
  let n := nodeOf dark V p in
  rootNode nodes edges = Some root
  /\ nth_error nodes (index_of V p) = Some n
  /\ position n = {| x := 0; y := 0 |}
  /\ bfsDepth edges (id root) (id n) (length p)
  /\ (exists st,
        computeLevels nodes edges = Some st
        /\ nth_error (getLevel (levels st) (length p)) (indexInLevel V p)
           = Some (id n)
        /\ length (getLevel (levels st) (length p))
           = levelSize V (length p))
  /\ (exists m,
        nth_error (layoutNodes nodes edges) (index_of V p) = Some m
        /\ id m = id n /\ data m = data n
        /\ position m
           = {| x := (((Z.of_nat (indexInLevel V p) # 1)
                       - (Z.of_nat (levelSize V (length p)) # 1) / (2 # 1))
                      * (200 # 1))%Q;
                y := ((Z.of_nat (length p) # 1) * (150 # 1))%Q |}
        /\ (x (position m)
            == (200 * Z.of_nat (indexInLevel V p)
                - 100 * Z.of_nat (levelSize V (length p))) # 1)%Q
        /\ (y (position m) == (150 * Z.of_nat (length p)) # 1)%Q)
  /\ (forall ns es k m,
        nth_error ns k = Some m ->
        (forall r, rootNode ns es = Some r ->
                   ~ reachable es (id r) (id m)) ->
        nth_error (layoutNodes ns es) k = Some m)
  /\ (forall es, layoutNodes [] es = []).
Proof.
  intros Hp nodes edges root n. subst nodes edges root n.
  split; [apply rootNode_tree |].
  split; [now apply createTree_nth |].
  split.
  { unfold nodeOf, nodeAt.
    destruct (locate V (str "root") (str "$") p) as [[l cp] c].
    reflexivity. }
  split.
  { rewrite createTree_edges, !nodeOf_id. now apply tree_bfsDepth. }
  split.
  { eexists. split; [apply computeLevels_tree |]. cbn [levels].
    destruct (pushAll_spec (visits V)) as (_ & Hget & _).
    rewrite Hget, nodeOf_id. split.
    - now apply levelOf_nth.
    - apply levelOf_length. }
  split.
  { eexists. split; [now apply layoutNodes_tree |].
    cbn [id data position x y].
    split; [reflexivity |]. split; [reflexivity |].
    split; [reflexivity |].
    split; unfold levelPosition, natQ, inject_Z, Qeq;
      cbn -[Z.mul Z.add Z.sub Z.opp Z.of_nat]; lia. }
  split; [apply layoutNodes_unreachable | reflexivity].
Qed.

Lemma layoutNodes_levels_witness :
  In [0; 0] (positions sampleNested)
  /\ exists m,
       nth_error (layoutNodes (fst (createTree_default true sampleNested))
                              (snd (createTree_default true sampleNested)))
                 2
       = Some m
       /\ (x (position m) == - (100 # 1))%Q
       /\ (y (position m) == 300 # 1)%Q.
Proof.
  assert (H : In [0; 0] (positions sampleNested)) by (simpl; auto).
  split; [exact H |].
  destruct (layoutNodes_levels true sampleNested [0; 0] H)
    as (_ & _ & _ & _ & _ & (m & Hm & _ & _ & _ & Hx & Hy) & _).
  exists m. split; [exact Hm |].
  split; [rewrite Hx | rewrite Hy]; vm_compute; reflexivity.
Defined.

(* ================================================================== *)
(** ** [findLevel] never runs out of fuel *)











(* ================================================================== *)
(** ** Further properties: rendering *)

(** X1: the background colour of a node tells a highlighted node from
    every node that is not highlighted and, among nodes that are not
    highlighted, determines both the kind of the node and the theme. *)
Theorem customNodeBackground_inj d1 d2 :
  customNodeBackground d1 = customNodeBackground d2 ->
  isHighlighted d1 = isHighlighted d2
  /\ (isHighlighted d1 = false ->
      type d1 = type d2 /\ isDark d1 = isDark d2).
Proof.
  destruct d1 as [l1 v1 t1 p1 k1 h1], d2 as [l2 v2 t2 p2 k2 h2].
  unfold customNodeBackground; simpl.
  destruct h1, h2, t1, t2, k1, k2; intros H;
    try (vm_compute in H; discriminate);
    split; try reflexivity; try discriminate; intros _; split; reflexivity.
Qed.

Lemma customNodeBackground_inj_witness :
  customNodeBackground (data (newNode true 0 JNull [] []))
  = customNodeBackground (data (newNode true 1 (JBool true) [] []))
  /\ type (data (newNode true 0 JNull [] []))
     = type (data (newNode true 1 (JBool true) [] [])).
Proof.
  split; [reflexivity |].
  apply (customNodeBackground_inj
           (data (newNode true 0 JNull [] []))
           (data (newNode true 1 (JBool true) [] [])) eq_refl).
  reflexivity.
Defined.

(** X2: after a search, the banner under the search field is absent
    exactly when the search string was empty after trimming; otherwise
    it is shown, in the success style exactly when a node matched. *)
Theorem searchBanner_after_search st :
  searchBanner (fst (handleSearch st))
  = if isEmpty (trim (st_searchPath st)) then None
    else Some (match matchedNode (st_nodes st) (st_searchPath st) with
               | Some _ => true
               | None => false
               end).
Proof.
  unfold handleSearch.
  destruct (isEmpty (trim (st_searchPath st))); [reflexivity |].
  destruct (matchedNode (st_nodes st) (st_searchPath st)); reflexivity.
Qed.

Lemma layoutNodes_length nodes edges :
  length (layoutNodes nodes edges) = length nodes.
Proof.
  rewrite <- (length_map id), (proj1 (layoutNodes_frame nodes edges)).
  apply length_map.
Qed.

(** X3: after the visualize action exactly one of two things is on
    display.  When the input parsed and the tree was built: the graph,
    one node for every value of the input, with neither the error banner
    nor the search banner.  When the input did not parse: the error
    banner with the parser's message, and no graph.  When the input
    parsed and building the tree raised an exception: the error banner
    with the message of that exception, no graph and no search
    banner. *)
Theorem handleVisualize_display JSON_parse buildThrows st :
  match JSON_parse (st_jsonInput st) with
  | inl parsed =>
      match buildThrows parsed with
      | None =>
          showsTree (handleVisualize JSON_parse buildThrows st) = true
          /\ length (st_nodes (handleVisualize JSON_parse buildThrows st))
             = size parsed
          /\ errorBanner (handleVisualize JSON_parse buildThrows st) = None
          /\ searchBanner (handleVisualize JSON_parse buildThrows st) = None
      | Some message =>
          showsTree (handleVisualize JSON_parse buildThrows st) = false
          /\ errorBanner (handleVisualize JSON_parse buildThrows st)
             = Some (str "Invalid JSON: " ++ message)
          /\ searchBanner (handleVisualize JSON_parse buildThrows st) = None
      end
  | inr message =>
      showsTree (handleVisualize JSON_parse buildThrows st) = false
      /\ errorBanner (handleVisualize JSON_parse buildThrows st)
         = Some (str "Invalid JSON: " ++ message)
  end.
Proof.
  unfold handleVisualize.
  destruct (JSON_parse (st_jsonInput st)) as [parsed | message].
  - destruct (buildThrows parsed) as [message |]; [repeat split |].
    destruct (createTree_default (st_isDark st) parsed) as [ns es] eqn:E.
    assert (Hlen : length (layoutNodes ns es) = size parsed).
    { rewrite layoutNodes_length.
      replace ns with (fst (createTree_default (st_isDark st) parsed))
        by now rewrite E.
      rewrite createTree_default_spec; simpl.
      now rewrite length_map, positions_length. }
    unfold showsTree; simpl. rewrite Hlen, size_eq. repeat split.
  - repeat split.
Qed.

(* ================================================================== *)
(** ** Further properties: search, click and theme *)

Lemma setHighlighted_frame h n :
  id (setHighlighted h n) = id n
  /\ position (setHighlighted h n) = position n
  /\ unhighlighted (setHighlighted h n) = unhighlighted n
  /\ isHighlighted (data (setHighlighted h n)) = h.
Proof. repeat split. Qed.

Lemma map_setHighlighted_frame (f : RFNode -> bool) nodes :
  map id (map (fun n => setHighlighted (f n) n) nodes) = map id nodes
  /\ map position (map (fun n => setHighlighted (f n) n) nodes)
     = map position nodes
  /\ map unhighlighted (map (fun n => setHighlighted (f n) n) nodes)
     = map unhighlighted nodes.
Proof. rewrite !map_map. repeat split. Qed.

Lemma handleSearch_nodes st :
  exists f, st_nodes (fst (handleSearch st))
            = map (fun n => setHighlighted (f n) n) (st_nodes st).
Proof.
  unfold handleSearch.
  destruct (isEmpty (trim (st_searchPath st))).
  - now exists (fun _ => false).
  - destruct (matchedNode (st_nodes st) (st_searchPath st)) as [m|].
    + now exists (fun n => str_eqb (id n) (id m)).
    + now exists (fun _ => false).
Qed.

Lemma handleSearch_isDark st :
  st_isDark (fst (handleSearch st)) = st_isDark st.
Proof.
  unfold handleSearch.
  destruct (isEmpty (trim (st_searchPath st)));
    [| destruct (matchedNode (st_nodes st) (st_searchPath st))];
    reflexivity.
Qed.

(** X4: a search changes nothing but the highlight flags of the nodes
    and the status text: the nodes keep their order, ids, positions and
    all other data, and the input text, the search field, the edges, the
    error message, the theme and the viewport handle are untouched. *)
Theorem handleSearch_frame st :
  map id (st_nodes (fst (handleSearch st))) = map id (st_nodes st)
  /\ map position (st_nodes (fst (handleSearch st)))
     = map position (st_nodes st)
  /\ map unhighlighted (st_nodes (fst (handleSearch st)))
     = map unhighlighted (st_nodes st)
  /\ st_edges (fst (handleSearch st)) = st_edges st
  /\ st_jsonInput (fst (handleSearch st)) = st_jsonInput st
  /\ st_searchPath (fst (handleSearch st)) = st_searchPath st
  /\ st_error (fst (handleSearch st)) = st_error st
  /\ st_isDark (fst (handleSearch st)) = st_isDark st
  /\ st_rfInstance (fst (handleSearch st)) = st_rfInstance st.
Proof.
  destruct (handleSearch_nodes st) as (f & ->).
  destruct (map_setHighlighted_frame f (st_nodes st)) as (-> & -> & ->).
  unfold handleSearch.
  destruct (isEmpty (trim (st_searchPath st)));
    [| destruct (matchedNode (st_nodes st) (st_searchPath st))];
    repeat split.
Qed.

Lemma find_map_pred {A : Type} (f : A -> bool) (h : A -> A) (l : list A) :
  (forall a, f (h a) = f a) ->
  find f (map h l) = option_map h (find f l).
Proof.
  intros H. induction l as [|a l IH]; simpl; auto.
  rewrite H. destruct (f a); auto.
Qed.

Lemma matchedNode_highlight (g : RFNode -> bool) nodes s :
  matchedNode (map (fun n => setHighlighted (g n) n) nodes) s
  = option_map (fun n => setHighlighted (g n) n) (matchedNode nodes s).
Proof. unfold matchedNode. now apply find_map_pred. Qed.

(** X5: searching again with the same search string changes nothing:
    the second search yields the state of the first and sends the same
    command to the viewport. *)
Theorem handleSearch_idempotent st :
  handleSearch (fst (handleSearch st)) = handleSearch st.
Proof.
  unfold handleSearch at 2 3.
  destruct (isEmpty (trim (st_searchPath st))) eqn:He.
  - unfold handleSearch; simpl. rewrite He, map_map. reflexivity.
  - destruct (matchedNode (st_nodes st) (st_searchPath st)) as [m|] eqn:Hm.
    + unfold handleSearch; simpl.
      rewrite He, matchedNode_highlight, Hm; simpl. rewrite map_map.
      reflexivity.
    + unfold handleSearch; simpl.
      rewrite He, matchedNode_highlight, Hm; simpl. rewrite map_map.
      reflexivity.
Qed.

Lemma highlightedNodes_by_id nodes i :
  NoDup (map id nodes) ->
  length (highlightedNodes
            (map (fun n => setHighlighted (str_eqb (id n) i) n) nodes))
  <= 1.
Proof.
  unfold highlightedNodes. rewrite filter_map_swap, length_map. simpl.
  induction nodes as [|n nodes IH]; simpl; intros Hnd; [lia |].
  inversion Hnd as [|? ? Hnot Hnd']; subst.
  destruct (str_eqb (id n) i) eqn:E; [| auto].
  apply str_eqb_eq in E. subst i. simpl.
  rewrite filter_none; [simpl; lia |].
  intros m Hm. destruct (str_eqb (id m) (id n)) eqn:E; [| reflexivity].
  apply str_eqb_eq in E. exfalso. apply Hnot. rewrite <- E.
  now apply in_map.
Qed.

Lemma highlightedNodes_none nodes :
  highlightedNodes (map (setHighlighted false) nodes) = [].
Proof.
  unfold highlightedNodes. apply filter_none.
  intros n Hn. apply in_map_iff in Hn. now destruct Hn as (m & <- & _).
Qed.

(** X6: a search with a string that is not empty after trimming reports
    "Match found!" exactly when some node has the normalized search
    string as its path, character for character; the match is the first
    such node, it ends up highlighted, and when the ids of the nodes are
    pairwise distinct no other node is.  Without a match no node is
    highlighted. *)
Theorem handleSearch_exact_match st :
  trim (st_searchPath st) <> [] ->
  (st_searchResult (fst (handleSearch st)) = str "Match found!"
   <-> exists n, In n (st_nodes st)
                 /\ path (data n) = normalizedPath (st_searchPath st))
  /\ (st_searchResult (fst (handleSearch st)) = str "No match found"
      <-> forall n, In n (st_nodes st) ->
                    path (data n) <> normalizedPath (st_searchPath st))
  /\ (forall m, matchedNode (st_nodes st) (st_searchPath st) = Some m ->
        In (setHighlighted true m)
           (highlightedNodes (st_nodes (fst (handleSearch st))))
        /\ (NoDup (map id (st_nodes st)) ->
            highlightedNodes (st_nodes (fst (handleSearch st)))
            = [setHighlighted true m]))
  /\ (matchedNode (st_nodes st) (st_searchPath st) = None ->
      highlightedNodes (st_nodes (fst (handleSearch st))) = []).
Proof.
  intros Hne. unfold handleSearch.
  destruct (trim (st_searchPath st)) as [|c t] eqn:Et; [congruence |].
  cbn [isEmpty].
  destruct (matchedNode (st_nodes st) (st_searchPath st)) as [m|] eqn:Hm;
    cbn [fst st_searchResult st_nodes].
  - pose proof Hm as Hm'. unfold matchedNode in Hm'.
    apply find_some in Hm'. destruct Hm' as [Hin Hp].
    apply str_eqb_eq in Hp.
    assert (Hhl : In (setHighlighted true m)
                     (highlightedNodes
                        (map (fun n => setHighlighted (str_eqb (id n) (id m)) n)
                             (st_nodes st)))).
    { unfold highlightedNodes. apply filter_In. split; [| reflexivity].
      apply in_map_iff. exists m. now rewrite str_eqb_refl. }
    split; [split; [intros _; now exists m | reflexivity] |].
    split; [split; [discriminate | intros H; now elim (H m Hin)] |].
    split; [| discriminate].
    intros m' E. inversion E; subst m'. split; [exact Hhl |].
    intros Hnd. pose proof (highlightedNodes_by_id _ (id m) Hnd) as Hle.
    destruct (highlightedNodes _) as [|a [|b r]]; simpl in *;
      [tauto | | lia].
    destruct Hhl as [-> | []]. reflexivity.
  - unfold matchedNode in Hm.
    pose proof (find_none _ _ Hm) as Hnone.
    split; [split; [discriminate |] |].
    { intros (n & Hin & Hp). specialize (Hnone n Hin). cbv beta in Hnone.
      rewrite Hp, str_eqb_refl in Hnone. discriminate. }
    split; [split; [intros _ | reflexivity] |].
    { intros n Hin Hp. specialize (Hnone n Hin). cbv beta in Hnone.
      rewrite Hp, str_eqb_refl in Hnone. discriminate. }
    split; [discriminate |].
    intros _. apply highlightedNodes_none.
Qed.

Lemma handleSearch_exact_match_witness :
  trim (str " a ") <> []
  /\ (st_searchResult
        (fst (handleSearch (setSearchPath (str " a ")
                              (stateWithTree sampleNested))))
      = str "Match found!"
      <-> exists n,
            In n (st_nodes (setSearchPath (str " a ")
                              (stateWithTree sampleNested)))
            /\ path (data n) = normalizedPath (str " a ")).
Proof.
  assert (H : trim (str " a ") <> []) by discriminate.
  split; [exact H |].
  apply (handleSearch_exact_match
           (setSearchPath (str " a ") (stateWithTree sampleNested)) H).
Defined.

Lemma find_exists {A : Type} (f : A -> bool) (l : list A) (a : A) :
  In a l -> f a = true -> exists b, find f l = Some b.
Proof.
  intros Hin Ha. destruct (find f l) as [b|] eqn:E; [now exists b |].
  rewrite (find_none _ _ E a Hin) in Ha. discriminate.
Qed.

Lemma map_highlight_twice (g h : RFNode -> bool) nodes :
  (forall n, h (setHighlighted (g n) n) = g n) ->
  map (fun n => setHighlighted (h n) n)
      (map (fun n => setHighlighted (g n) n) nodes)
  = map (fun n => setHighlighted (g n) n) nodes.
Proof.
  intros H. rewrite map_map. apply map_ext. intros n.
  rewrite H. reflexivity.
Qed.

(** X7: clicking a node whose path starts with ["$"] and is unchanged by
    trimming hands the path to the clipboard, puts it into the search
    field and highlights the node (and only it, when ids are pairwise
    distinct); a search pressed right after reports "Match found!" for a
    node with that same path, and when the paths of the nodes are
    pairwise distinct it leaves the nodes exactly as the click set
    them. *)
Theorem onNodeClick_then_search st node :
  In node (st_nodes st) ->
  startsWith (path (data node)) (str "$") = true ->
  trim (path (data node)) = path (data node) ->
  snd (onNodeClick node st) = Some (path (data node))
  /\ st_searchPath (fst (onNodeClick node st)) = path (data node)
  /\ In (setHighlighted true node)
        (highlightedNodes (st_nodes (fst (onNodeClick node st))))
  /\ (NoDup (map id (st_nodes st)) ->
      highlightedNodes (st_nodes (fst (onNodeClick node st)))
      = [setHighlighted true node])
  /\ st_searchResult (fst (handleSearch (fst (onNodeClick node st))))
     = str "Match found!"
  /\ (exists m,
        matchedNode (st_nodes (fst (onNodeClick node st)))
                    (st_searchPath (fst (onNodeClick node st))) = Some m
        /\ path (data m) = path (data node))
  /\ (NoDup (map (fun n => path (data n)) (st_nodes st)) ->
      st_nodes (fst (handleSearch (fst (onNodeClick node st))))
      = st_nodes (fst (onNodeClick node st))).
Proof.
  intros Hin Hd Ht. unfold onNodeClick.
  destruct (path (data node)) as [|c t] eqn:Ep; [discriminate |].
  cbn [isEmpty fst snd st_searchPath st_nodes].
  assert (Hnorm : normalizedPath (c :: t) = c :: t).
  { unfold normalizedPath. now rewrite Ht, Hd. }
  assert (Hhl : In (setHighlighted true node)
                   (highlightedNodes
                      (map (fun n => setHighlighted (str_eqb (id n) (id node)) n)
                           (st_nodes st)))).
  { unfold highlightedNodes. apply filter_In. split; [| reflexivity].
    apply in_map_iff. exists node. now rewrite str_eqb_refl. }
  destruct (find_exists
              (fun n => str_eqb (path (data n)) (normalizedPath (c :: t)))
              (st_nodes st) node Hin) as (m & Hm).
  { rewrite Hnorm, Ep. apply str_eqb_refl. }
  pose proof (find_some _ _ Hm) as [Hmin Hmp].
  cbv beta in Hmp. rewrite Hnorm in Hmp. apply str_eqb_eq in Hmp.
  assert (Hmatch :
    matchedNode
      (map (fun n => setHighlighted (str_eqb (id n) (id node)) n)
           (st_nodes st)) (c :: t)
    = Some (setHighlighted (str_eqb (id m) (id node)) m)).
  { rewrite matchedNode_highlight. unfold matchedNode. now rewrite Hm. }
  split; [reflexivity |]. split; [reflexivity |].
  split; [exact Hhl |].
  split.
  { intros Hnd. pose proof (highlightedNodes_by_id _ (id node) Hnd) as Hle.
    destruct (highlightedNodes _) as [|a [|b r]]; simpl in *;
      [tauto | | lia].
    destruct Hhl as [-> | []]. reflexivity. }
  unfold handleSearch. cbn [st_searchPath st_nodes].
  rewrite Ht. cbn [isEmpty]. rewrite Hmatch.
  cbn [fst st_searchResult st_nodes].
  split; [reflexivity |].
  split; [exists (setHighlighted (str_eqb (id m) (id node)) m); now split |].
  intros Hnd.
  assert (E : m = node).
  { apply (NoDup_map_inj (fun n => path (data n)) (st_nodes st) Hnd);
      auto. now rewrite Ep. }
  subst m. apply map_highlight_twice. reflexivity.
Qed.

Lemma onNodeClick_then_search_witness :
  In (nodeOf true sampleNested [0]) (st_nodes (stateWithTree sampleNested))
  /\ st_searchResult
       (fst (handleSearch
               (fst (onNodeClick (nodeOf true sampleNested [0])
                                 (stateWithTree sampleNested)))))
     = str "Match found!".
Proof.
  assert (H : In (nodeOf true sampleNested [0])
                 (st_nodes (stateWithTree sampleNested)))
    by (right; left; reflexivity).
  split; [exact H |].
  apply (onNodeClick_then_search (stateWithTree sampleNested)
           (nodeOf true sampleNested [0]) H eq_refl eq_refl).
Defined.

Lemma themeConsistent_highlight (f : RFNode -> bool) d nodes :
  Forall (fun n => isDark (data n) = d) nodes ->
  Forall (fun n => isDark (data n) = d)
         (map (fun n => setHighlighted (f n) n) nodes).
Proof.
  intros H. apply Forall_map. eapply Forall_impl; [| exact H]. auto.
Qed.

(** X8: the theme flag of the nodes always agrees with the theme of the
    component: the visualize action, the clear action and the theme
    toggle establish this from any state, and search and node click
    preserve it. *)
Theorem themeConsistent_invariant JSON_parse buildThrows st node :
  themeConsistent (handleVisualize JSON_parse buildThrows st)
  /\ themeConsistent (handleClear st)
  /\ themeConsistent (toggleTheme st)
  /\ (themeConsistent st ->
      themeConsistent (fst (handleSearch st))
      /\ themeConsistent (fst (onNodeClick node st))).
Proof.
  unfold themeConsistent. split; [| split; [| split]].
  - unfold handleVisualize.
    destruct (JSON_parse (st_jsonInput st)) as [parsed | message];
      [| constructor].
    destruct (buildThrows parsed) as [message |]; [constructor |].
    destruct (createTree_default (st_isDark st) parsed) as [ns es] eqn:E.
    simpl.
    rewrite <- (Forall_map data (fun d => isDark d = st_isDark st)).
    rewrite (proj2 (layoutNodes_frame ns es)).
    replace ns with (fst (createTree_default (st_isDark st) parsed))
      by now rewrite E.
    rewrite createTree_default_spec; simpl.
    rewrite map_map. apply Forall_map, Forall_forall. intros q _.
    unfold nodeOf, nodeAt.
    destruct (locate parsed (str "root") (str "$") q) as [[l cp] c].
    reflexivity.
  - constructor.
  - unfold toggleTheme, themeEffect; simpl.
    destruct (st_nodes st) as [|n ns]; simpl; [constructor |].
    constructor; [reflexivity |].
    apply Forall_map, Forall_forall. reflexivity.
  - intros H. split.
    + destruct (handleSearch_nodes st) as (f & ->).
      rewrite handleSearch_isDark.
      now apply themeConsistent_highlight.
    + unfold onNodeClick. destruct (isEmpty (path (data node))); simpl; auto.
      now apply themeConsistent_highlight.
Qed.

Lemma themeConsistent_invariant_witness :
  themeConsistent (stateWithTree sampleNested)
  /\ themeConsistent
       (fst (handleSearch (setSearchPath (str "a")
                             (stateWithTree sampleNested)))).
Proof.
  assert (H : themeConsistent (stateWithTree sampleNested))
    by (repeat constructor).
  split; [exact H |].
  assert (H' : themeConsistent
                 (setSearchPath (str "a") (stateWithTree sampleNested)))
    by exact H.
  destruct (themeConsistent_invariant sampleParse sampleEngine
              (setSearchPath (str "a") (stateWithTree sampleNested))
              (nodeOf true sampleNested []))
    as (_ & _ & _ & Hinv).
  exact (proj1 (Hinv H')).
Defined.

Lemma setDark_same d nodes :
  Forall (fun n => isDark (data n) = d) nodes ->
  map (setDark d) nodes = nodes.
Proof.
  induction 1 as [|n nodes Hn _ IH]; simpl; [reflexivity |].
  rewrite IH. f_equal.
  destruct n as [i [l v t p k h] pos]; simpl in *. now subst.
Qed.

Lemma setDark_twice d d' nodes :
  map (setDark d) (map (setDark d') nodes) = map (setDark d) nodes.
Proof. rewrite map_map. reflexivity. Qed.

Lemma toggleTheme_eq st :
  toggleTheme st
  = {| st_jsonInput := st_jsonInput st; st_searchPath := st_searchPath st;
       st_nodes := map (setDark (negb (st_isDark st))) (st_nodes st);
       st_edges := st_edges st; st_error := st_error st;
       st_searchResult := st_searchResult st;
       st_isDark := negb (st_isDark st);
       st_rfInstance := st_rfInstance st |}.
Proof.
  unfold toggleTheme, themeEffect; simpl.
  destruct (st_nodes st); reflexivity.
Qed.

(** X9: the theme toggle flips the theme of the component and stamps
    the new flag on every node; it changes nothing else (ids, positions,
    highlight flags, labels, paths, edges, texts); and on a state whose
    nodes agree with the component's theme, toggling twice gives the
    state back. *)
Theorem toggleTheme_spec st :
  st_isDark (toggleTheme st) = negb (st_isDark st)
  /\ st_nodes (toggleTheme st)
     = map (setDark (negb (st_isDark st))) (st_nodes st)
  /\ st_edges (toggleTheme st) = st_edges st
  /\ st_jsonInput (toggleTheme st) = st_jsonInput st
  /\ st_searchPath (toggleTheme st) = st_searchPath st
  /\ st_searchResult (toggleTheme st) = st_searchResult st
  /\ st_error (toggleTheme st) = st_error st
  /\ (themeConsistent st -> toggleTheme (toggleTheme st) = st).
Proof.
  rewrite (toggleTheme_eq (toggleTheme st)), !(toggleTheme_eq st).
  cbn [st_jsonInput st_searchPath st_nodes st_edges st_error
       st_searchResult st_isDark st_rfInstance].
  repeat split. intros Hc.
  rewrite negb_involutive, setDark_twice, (setDark_same _ _ Hc).
  destruct st; reflexivity.
Qed.

Lemma toggleTheme_spec_witness :
  themeConsistent (stateWithTree sampleNested)
  /\ toggleTheme (toggleTheme (stateWithTree sampleNested))
     = stateWithTree sampleNested.
Proof.
  assert (H : themeConsistent (stateWithTree sampleNested))
    by (repeat constructor).
  split; [exact H |].
  destruct (toggleTheme_spec (stateWithTree sampleNested))
    as (_ & _ & _ & _ & _ & _ & _ & Hinv).
  exact (Hinv H).
Defined.

(* ================================================================== *)
(** ** Further properties: the tree *)

Lemma locate_value : forall p v l cp,
  snd (locate v l cp p) = subvalueAt v p.
Proof.
  induction p as [|i q IH]; intros v l cp; simpl; auto.
  rewrite <- (children_values v cp), nth_error_map.
  destruct (nth_error (children v cp) i) as [[[l' cp'] c]|]; simpl; auto.
Qed.

Lemma validPos_snoc_inv : forall p V i,
  validPos V (p ++ [i]) ->
  validPos V p
  /\ exists c, nth_error (subvalues (subvalueAt V p)) i = Some c.
Proof.
  induction p as [|j p IH]; intros V i H; simpl in *.
  - destruct (nth_error (subvalues V) i) as [c|]; [| tauto].
    split; [exact I | now exists c].
  - destruct (nth_error (subvalues V) j) as [c|]; [| tauto].
    now apply IH.
Qed.

Lemma locate_snoc : forall p v l cp i,
  validPos v p ->
  locate v l cp (p ++ [i])
  = match nth_error (children (snd (locate v l cp p))
                              (snd (fst (locate v l cp p)))) i with
    | Some t => t
    | None => locate v l cp p
    end.
Proof.
  induction p as [|j p IH]; intros v l cp i Hv; simpl.
  - destruct (nth_error (children v cp) i) as [[[l' cp'] c]|]; reflexivity.
  - destruct (validPos_child v cp j p Hv) as (l1 & cp1 & c1 & Hnth & Hp).
    rewrite Hnth. now apply IH.
Qed.

Lemma nodeOf_child_path dark V p i :
  In (p ++ [i]) (positions V) ->
  label (data (nodeOf dark V [])) = str "root"
  /\ path (data (nodeOf dark V [])) = str "$"
  /\ match subvalueAt V p with
     | JObject entries =>
         exists k c,
           nth_error entries i = Some (k, c)
           /\ label (data (nodeOf dark V (p ++ [i]))) = k
           /\ path (data (nodeOf dark V (p ++ [i])))
              = path (data (nodeOf dark V p)) ++ str "." ++ k
     | JArray items =>
         label (data (nodeOf dark V (p ++ [i])))
         = str "[" ++ showNat i ++ str "]"
         /\ path (data (nodeOf dark V (p ++ [i])))
            = path (data (nodeOf dark V p))
              ++ label (data (nodeOf dark V (p ++ [i])))
     | _ => False
     end.
Proof.
  intros Hin. split; [reflexivity | split; [reflexivity |]].
  apply positions_valid in Hin.
  destruct (validPos_snoc_inv p V i Hin) as (Hv & c & Hc).
  unfold nodeOf, nodeAt.
  rewrite (locate_snoc p V (str "root") (str "$") i Hv).
  pose proof (locate_value p V (str "root") (str "$")) as Hval.
  destruct (locate V (str "root") (str "$") p) as [[lp cpp] cv].
  simpl in Hval. subst cv. cbn [fst snd].
  rewrite <- (children_values (subvalueAt V p) cpp), nth_error_map in Hc.
  destruct (nth_error (children (subvalueAt V p) cpp) i)
    as [[[l' cp'] c']|] eqn:Hnth; [| discriminate].
  apply children_nth in Hnth.
  destruct Hnth as [(es & -> & Hes & ->) | (items & -> & _ & -> & ->)].
  - exists l', c'. repeat split. exact Hes.
  - split; reflexivity.
Qed.

Lemma nodeOf_kind dark V p :
  match subvalueAt V p with
  | JObject _ =>
      type (data (nodeOf dark V p)) = object
      /\ value (data (nodeOf dark V p)) = None
  | JArray _ =>
      type (data (nodeOf dark V p)) = array
      /\ value (data (nodeOf dark V p)) = None
  | prim =>
      type (data (nodeOf dark V p)) = primitive
      /\ value (data (nodeOf dark V p)) = Some prim
  end.
Proof.
  unfold nodeOf, nodeAt.
  pose proof (locate_value p V (str "root") (str "$")) as Hval.
  destruct (locate V (str "root") (str "$") p) as [[lp cpp] cv].
  simpl in Hval. subst cv.
  destruct (subvalueAt V p); split; reflexivity.
Qed.

Lemma node_by_id dark V n q :
  In n (fst (createTree_default dark V)) -> In q (positions V) ->
  id n = idOf V q -> n = nodeOf dark V q.
Proof.
  rewrite createTree_default_spec; cbn [fst]. intros Hn Hq E.
  apply in_map_iff in Hn. destruct Hn as (q' & <- & Hq').
  rewrite nodeOf_id in E. unfold idOf, nodeIdStr in E.
  apply app_inv_head, showNat_inj in E.
  now rewrite (index_of_inj V q' q Hq' Hq E).
Qed.

(** X10: in the node and edge lists [createTree] returns, the first node
    is labelled "root" and has the path [$]; for every edge, the path of
    the node at its [target] is the path of the node at its [source]
    followed by one segment made from the target's label: a dot and the
    label when the source node is an object, the label itself, which is
    [[i]] for some [i], when it is an array; and the child [i] of the
    value at a position has such an edge from the node of that position,
    labelled with the key of entry [i] of an object and with [[i]] for
    element [i] of an array. *)
Theorem createTree_child_paths dark V :
  let nodes := fst (createTree_default dark V) in
  let edges := snd (createTree_default dark V) in
  (exists root,
     hd_error nodes = Some root
     /\ label (data root) = str "root" /\ path (data root) = str "$")
  /\ (forall e parent child,
        In e edges -> In parent nodes -> In child nodes ->
        source e = id parent -> target e = id child ->
        (type (data parent) = object
         /\ path (data child)
            = path (data parent) ++ str "." ++ label (data child))
        \/ (type (data parent) = array
            /\ (exists i, label (data child)
                          = str "[" ++ showNat i ++ str "]")
            /\ path (data child)
               = path (data parent) ++ label (data child)))
  /\ (forall p i,
        In (p ++ [i]) (positions V) ->
        exists parent child e,
          nth_error nodes (index_of V p) = Some parent
          /\ nth_error nodes (index_of V (p ++ [i])) = Some child
          /\ In e edges /\ source e = id parent /\ target e = id child
          /\ match subvalueAt V p with
             | JObject entries =>
                 exists k c, nth_error entries i = Some (k, c)
                             /\ label (data child) = k
             | JArray items =>
                 label (data child) = str "[" ++ showNat i ++ str "]"
             | _ => False
             end).
Proof.
  intros nodes edges. subst nodes edges. split; [| split].
  - exists (nodeOf dark V []). split; [| split; reflexivity].
    rewrite createTree_default_spec, positions_eq. reflexivity.
  - intros e parent child He Hpar Hch Hs Ht.
    rewrite createTree_edges in He. apply treeEdges_In in He.
    destruct He as (q & Hq & Hne & Hsrc & Htgt & _).
    destruct (exists_last Hne) as (p & i & ->).
    pose proof (positions_parent V _ Hq) as Hp.
    rewrite removelast_last in Hsrc, Hp.
    rewrite (node_by_id dark V parent p Hpar Hp) by congruence.
    rewrite (node_by_id dark V child (p ++ [i]) Hch Hq) by congruence.
    destruct (nodeOf_child_path dark V p i Hq) as (_ & _ & H).
    pose proof (nodeOf_kind dark V p) as Hk.
    destruct (subvalueAt V p); try contradiction.
    + right. destruct H as [Hl Hpath]. split; [apply Hk |].
      split; [now exists i | exact Hpath].
    + left. destruct H as (k & c & _ & Hl & Hpath).
      rewrite Hl. split; [apply Hk | exact Hpath].
  - intros p i Hq.
    pose proof (positions_parent V _ Hq) as Hp.
    rewrite removelast_last in Hp.
    exists (nodeOf dark V p), (nodeOf dark V (p ++ [i])),
      (edgeAt V 0 (p ++ [i])).
    split; [now apply createTree_nth |].
    split; [now apply createTree_nth |].
    split.
    { rewrite createTree_edges. apply treeEdges_In.
      exists (p ++ [i]). repeat split; auto.
      now destruct p. }
    split.
    { rewrite nodeOf_id. unfold edgeAt. cbn [newEdge source].
      now rewrite removelast_last. }
    split; [now rewrite nodeOf_id |].
    destruct (nodeOf_child_path dark V p i Hq) as (_ & _ & H).
    destruct (subvalueAt V p); try contradiction.
    + apply H.
    + destruct H as (k & c & Hn & Hl & _). now exists k, c.
Qed.

Lemma createTree_child_paths_witness :
  In ([0] ++ [0]) (positions sampleNested)
  /\ exists parent child e,
       nth_error (fst (createTree_default true sampleNested)) 1
       = Some parent
       /\ nth_error (fst (createTree_default true sampleNested)) 2
          = Some child
       /\ In e (snd (createTree_default true sampleNested))
       /\ source e = id parent /\ target e = id child
       /\ label (data child) = str "[0]".
Proof.
  assert (H : In ([0] ++ [0]) (positions sampleNested)) by (simpl; auto).
  split; [exact H |].
  destruct (createTree_child_paths true sampleNested) as (_ & _ & Hc).
  destruct (Hc [0] 0 H) as (parent & child & e & H1 & H2 & H3 & H4 & H5 & H6).
  exists parent, child, e. repeat split; assumption.
Defined.

(** X11: the node built for a position carries the kind of the JSON
    value found there (array, object, or primitive for strings, numbers,
    booleans and [null]) and holds that value exactly when it is a
    primitive. *)
Theorem createTree_node_kinds dark V p :
  In p (positions V) ->
  nth_error (fst (createTree_default dark V)) (index_of V p)
  = Some (nodeOf dark V p)
  /\ match subvalueAt V p with
     | JObject _ =>
         type (data (nodeOf dark V p)) = object
         /\ value (data (nodeOf dark V p)) = None
     | JArray _ =>
         type (data (nodeOf dark V p)) = array
         /\ value (data (nodeOf dark V p)) = None
     | prim =>
         type (data (nodeOf dark V p)) = primitive
         /\ value (data (nodeOf dark V p)) = Some prim
     end.
Proof.
  intros Hp. split; [now apply createTree_nth | apply nodeOf_kind].
Qed.

Lemma createTree_node_kinds_witness :
  In [0; 0] (positions sampleNested)
  /\ type (data (nodeOf true sampleNested [0; 0])) = primitive
  /\ value (data (nodeOf true sampleNested [0; 0])) = Some JNull.
Proof.
  assert (H : In [0; 0] (positions sampleNested)) by (simpl; auto).
  split; [exact H |].
  exact (proj2 (createTree_node_kinds true sampleNested [0; 0] H)).
Defined.

(** X12: the edges that leave the node of a position lead, in order, to
    the nodes of the entries or elements of the value at that position,
    one edge each; in particular no edge leaves a primitive node. *)
Theorem createTree_out_edges dark V p :
  In p (positions V) ->
  map target
      (filter (fun e => str_eqb (source e) (id (nodeOf dark V p)))
              (snd (createTree_default dark V)))
  = map (fun i => id (nodeOf dark V (p ++ [i])))
        (seq 0 (length (subvalues (subvalueAt V p))))
  /\ (type (data (nodeOf dark V p)) = primitive ->
      filter (fun e => str_eqb (source e) (id (nodeOf dark V p)))
             (snd (createTree_default dark V)) = []).
Proof.
  intros Hp.
  assert (E : filter (fun e => str_eqb (source e) (id (nodeOf dark V p)))
                     (snd (createTree_default dark V))
              = map (edgeAt V 0) (childrenOf V p)).
  { rewrite createTree_edges, nodeOf_id. now apply edges_from. }
  rewrite E. split.
  - unfold childrenOf. rewrite !map_map. apply map_ext. intros i.
    now rewrite nodeOf_id.
  - intros Ht.
    pose proof (nodeOf_kind dark V p) as Hk.
    unfold childrenOf.
    destruct (subvalueAt V p); destruct Hk as [Hk _];
      try reflexivity; congruence.
Qed.

Lemma createTree_out_edges_witness :
  In [0; 0] (positions sampleNested)
  /\ filter (fun e => str_eqb (source e) (id (nodeOf true sampleNested [0; 0])))
            (snd (createTree_default true sampleNested)) = [].
Proof.
  assert (H : In [0; 0] (positions sampleNested)) by (simpl; auto).
  split; [exact H |].
  apply (createTree_out_edges true sampleNested [0; 0] H). reflexivity.
Defined.

Lemma edge_id_inj V q q' :
  In q (tl (positions V)) -> In q' (tl (positions V)) ->
  edge_id (edgeAt V 0 q) = edge_id (edgeAt V 0 q') -> q = q'.
Proof.
  intros Hq Hq' E. unfold edgeAt, newEdge, nodeIdStr in E.
  cbn [edge_id] in E. simpl in E.
  repeat match type of E with _ :: _ = _ :: _ => inversion E as [E']; clear E; rename E' into E end.
  apply (split_at_stop (fun c => negb (isDigit c))) in E;
    auto using showNat_no_stop; try reflexivity.
  destruct E as [_ E].
  repeat match type of E with _ :: _ = _ :: _ => inversion E as [E']; clear E; rename E' into E end.
  apply showNat_inj in E.
  apply in_tl_positions in Hq, Hq'.
  apply (index_of_inj V); tauto.
Qed.

(** X13: in the tree [createTree] builds the node ids are pairwise
    distinct, the edge ids are pairwise distinct, there is one edge less
    than there are nodes, every edge id is [edge-] followed by the
    source id, a dash and the target id, and both ends of every edge are
    ids of nodes of the tree. *)
Theorem createTree_ids_distinct dark V :
  NoDup (map id (fst (createTree_default dark V)))
  /\ NoDup (map edge_id (snd (createTree_default dark V)))
  /\ S (length (snd (createTree_default dark V)))
     = length (fst (createTree_default dark V))
  /\ Forall (fun e =>
               edge_id e = str "edge-" ++ source e ++ str "-" ++ target e
               /\ In (source e) (map id (fst (createTree_default dark V)))
               /\ In (target e) (map id (fst (createTree_default dark V))))
            (snd (createTree_default dark V)).
Proof.
  split; [rewrite createTree_ids; apply nodeIds_NoDup |].
  rewrite createTree_edges. split; [| split].
  - unfold treeEdges.
    rewrite map_map. apply NoDup_map_in; [apply tl_positions_NoDup |].
    intros q q'. apply edge_id_inj.
  - rewrite treeEdges_length, createTree_default_spec; simpl.
    now rewrite length_map, positions_length.
  - unfold treeEdges. apply Forall_map, Forall_forall. intros q Hq.
    apply in_tl_positions in Hq. destruct Hq as [Hq Hne].
    split; [reflexivity |].
    replace (map id (fst (createTree_default dark V)))
      with (map (idOf V) (positions V)).
    + split.
      * change (source (edgeAt V 0 q)) with (idOf V (removelast q)).
        apply in_map. now apply positions_parent.
      * change (target (edgeAt V 0 q)) with (idOf V q).
        now apply in_map.
    + rewrite createTree_default_spec; simpl. rewrite map_map.
      apply map_ext. intros r. now rewrite nodeOf_id.
Qed.


(* ================================================================== *)
(** ** Further properties: the layout *)

(** X15: on any node and edge lists the layout changes positions only:
    it returns the same number of nodes, in the same order, each with
    its id and data unchanged. *)
Theorem layoutNodes_positions_only nodes edges :
  length (layoutNodes nodes edges) = length nodes
  /\ map id (layoutNodes nodes edges) = map id nodes
  /\ map data (layoutNodes nodes edges) = map data nodes.
Proof.
  split; [apply layoutNodes_length | apply layoutNodes_frame].
Qed.

Lemma levelPosition_inj i len d j len' d' :
  ((x (levelPosition i len d) == x (levelPosition j len' d'))%Q ->
   len = len' -> i = j)
  /\ ((y (levelPosition i len d) == y (levelPosition j len' d'))%Q ->
      d = d').
Proof.
  unfold levelPosition, natQ, inject_Z, Qeq.
  cbn -[Z.mul Z.add Z.sub Z.opp Z.of_nat].
  split; [intros H -> | intros H]; lia.
Qed.

Lemma indexInLevel_inj V p q :
  In p (positions V) -> In q (positions V) ->
  length p = length q -> indexInLevel V p = indexInLevel V q -> p = q.
Proof.
  intros Hp Hq Hlen Hidx.
  pose proof (levelOf_nth V p Hp) as H1.
  pose proof (levelOf_nth V q Hq) as H2.
  rewrite Hlen, Hidx, H2 in H1.
  assert (E : idOf V q = idOf V p) by congruence.
  apply nodeIdStr_inj in E. symmetry. now apply (index_of_inj V).
Qed.

(** X16: the layout of a tree puts no two nodes at the same point: the
    coordinates of two different nodes differ as numbers, in [y] when
    the nodes are on different levels and in [x] when they are on the
    same level. *)
Theorem layoutNodes_no_overlap dark V p q :
  In p (positions V) -> In q (positions V) -> p <> q ->
  exists n m,
    nth_error (layoutNodes (fst (createTree_default dark V))
                           (snd (createTree_default dark V)))
              (index_of V p) = Some n
    /\ nth_error (layoutNodes (fst (createTree_default dark V))
                              (snd (createTree_default dark V)))
                 (index_of V q) = Some m
    /\ ~ ((x (position n) == x (position m))%Q
          /\ (y (position n) == y (position m))%Q)
    /\ (length p <> length q -> ~ (y (position n) == y (position m))%Q)
    /\ (length p = length q -> ~ (x (position n) == x (position m))%Q).
Proof.
  intros Hp Hq Hne.
  eexists. eexists.
  split; [apply (layoutNodes_tree dark V p Hp) |].
  split; [apply (layoutNodes_tree dark V q Hq) |].
  cbn [position].
  destruct (levelPosition_inj (indexInLevel V p) (levelSize V (length p))
              (length p) (indexInLevel V q) (levelSize V (length q))
              (length q)) as [Hx Hy].
  assert (Hsame : length p = length q ->
                  ~ (x (levelPosition (indexInLevel V p)
                         (levelSize V (length p)) (length p))
                     == x (levelPosition (indexInLevel V q)
                            (levelSize V (length q)) (length q)))%Q).
  { intros Hlen E. apply Hne.
    apply (indexInLevel_inj V); [exact Hp | exact Hq | exact Hlen |].
    apply Hx; [exact E | now rewrite Hlen]. }
  split; [| split].
  - intros [Ex Ey]. apply (Hsame (Hy Ey) Ex).
  - intros Hlen Ey. apply Hlen, Hy, Ey.
  - exact Hsame.
Qed.

Lemma layoutNodes_no_overlap_witness :
  In [0] (positions sampleNested) /\ In [0; 0] (positions sampleNested)
  /\ exists n m,
       nth_error (layoutNodes (fst (createTree_default true sampleNested))
                              (snd (createTree_default true sampleNested)))
                 1 = Some n
       /\ nth_error (layoutNodes (fst (createTree_default true sampleNested))
                                 (snd (createTree_default true sampleNested)))
                    2 = Some m
       /\ ~ (y (position n) == y (position m))%Q.
Proof.
  assert (H1 : In [0] (positions sampleNested)) by (simpl; auto).
  assert (H2 : In [0; 0] (positions sampleNested)) by (simpl; auto).
  split; [exact H1 |]. split; [exact H2 |].
  destruct (layoutNodes_no_overlap true sampleNested [0] [0; 0] H1 H2)
    as (n & m & Hn & Hm & _ & Hy & _); [discriminate |].
  exists n, m. split; [exact Hn |]. split; [exact Hm |].
  apply Hy. discriminate.
Defined.





(* ================================================================== *)
(** ** Further properties: visualize, then search *)

Lemma positions_nth_index V j q :
  nth_error (positions V) j = Some q -> index_of V q = j.
Proof.
  intros H. pose proof (nth_error_In _ _ H) as Hin.
  pose proof (nth_error_positions V q Hin) as H'.
  pose proof (positions_NoDup V) as Hnd.
  rewrite NoDup_nth_error in Hnd. apply Hnd.
  - apply nth_error_Some. congruence.
  - congruence.
Qed.

Lemma layoutNodes_tree_In dark V n :
  In n (layoutNodes (fst (createTree_default dark V))
                    (snd (createTree_default dark V))) ->
  exists q, In q (positions V) /\ n = laidNode dark V q.
Proof.
  intros Hin. destruct (In_nth_error _ _ Hin) as (j & Hj).
  assert (Hlt : j < length (positions V)).
  { rewrite positions_length.
    replace (size V) with (length (fst (createTree_default dark V)))
      by (rewrite createTree_default_spec; simpl;
          now rewrite length_map, positions_length).
    rewrite <- (layoutNodes_length _ (snd (createTree_default dark V))).
    apply nth_error_Some. congruence. }
  destruct (nth_error (positions V) j) as [q|] eqn:Hq;
    [| apply nth_error_None in Hq; lia].
  exists q. pose proof (nth_error_In _ _ Hq) as Hqin.
  split; [exact Hqin |].
  pose proof (layoutNodes_tree dark V q Hqin) as H.
  rewrite (positions_nth_index V j q Hq) in H.
  unfold laidNode. congruence.
Qed.

Lemma handleSearch_match st m :
  trim (st_searchPath st) <> [] ->
  matchedNode (st_nodes st) (st_searchPath st) = Some m ->
  st_searchResult (fst (handleSearch st)) = str "Match found!"
  /\ st_nodes (fst (handleSearch st))
     = map (fun n => setHighlighted (str_eqb (id n) (id m)) n) (st_nodes st)
  /\ snd (handleSearch st)
     = match st_rfInstance st with
       | Some rf =>
           match getNode rf (id m) with
           | Some latest =>
               Some {| center_x := x (position latest);
                       center_y := y (position latest);
                       zoom := 3 # 2; duration := 800 |}
           | None => None
           end
       | None => None
       end.
Proof.
  intros Hne Hm. unfold handleSearch.
  destruct (trim (st_searchPath st)); [congruence |].
  cbn [isEmpty]. rewrite Hm. repeat split.
Qed.

(** X18: visualize, then search.  When the input parses to a value none
    of whose keys contains ["."] or ["["], and its tree is built and
    laid out without an exception, searching for the path of any of its
    positions (a path that trimming leaves unchanged) reports
    "Match found!" and highlights exactly the node of that position, at
    the place the layout gave it, [((rank - size / 2) * 200, level * 150)];
    and when the rendering library hands back that node, the viewport is
    centred on that place at zoom 1.5. *)
Theorem visualize_then_search JSON_parse buildThrows st V p :
  JSON_parse (st_jsonInput st) = inl V ->
  buildThrows V = None ->
  plainKeys V = true ->
  In p (positions V) ->
  trim (pathOf V p) = pathOf V p ->
  let found :=
    handleSearch (setSearchPath (pathOf V p)
                    (handleVisualize JSON_parse buildThrows st)) in
  let laid := laidNode (st_isDark st) V p in
  st_searchResult (fst found) = str "Match found!"
  /\ position laid
     = {| x := ((inject_Z (Z.of_nat (indexInLevel V p))
                 - inject_Z (Z.of_nat (levelSize V (length p))) / 2)
                * 200)%Q;
          y := (inject_Z (Z.of_nat (length p)) * 150)%Q |}
  /\ nth_error (st_nodes (fst found)) (index_of V p)
     = Some (setHighlighted true laid)
  /\ highlightedNodes (st_nodes (fst found)) = [setHighlighted true laid]
  /\ (forall rf, st_rfInstance st = Some rf ->
                 getNode rf (id laid) = Some laid ->
                 snd found
                 = Some {| center_x := x (position laid);
                           center_y := y (position laid);
                           zoom := 3 # 2; duration := 800 |}).
Proof.
  intros Hparse Hbuilt Hk Hp Htrim found laid. subst found laid.
  set (dark := st_isDark st).
  set (L := layoutNodes (fst (createTree_default dark V))
                        (snd (createTree_default dark V))).
  assert (Hst : handleVisualize JSON_parse buildThrows st
                = {| st_jsonInput := st_jsonInput st;
                     st_searchPath := st_searchPath st;
                     st_nodes := L;
                     st_edges := snd (createTree_default dark V);
                     st_error := []; st_searchResult := [];
                     st_isDark := dark;
                     st_rfInstance := st_rfInstance st |}).
  { unfold handleVisualize. rewrite Hparse, Hbuilt. subst L dark.
    destruct (createTree_default (st_isDark st) V); reflexivity. }
  rewrite Hst. clear Hst.
  destruct (pathOf_dollar V p Hp) as (t & Et).
  assert (Hnorm : normalizedPath (pathOf V p) = pathOf V p).
  { unfold normalizedPath. rewrite Htrim, Et. reflexivity. }
  assert (HinL : nth_error L (index_of V p) = Some (laidNode dark V p))
    by (apply layoutNodes_tree; exact Hp).
  assert (Hm : matchedNode L (pathOf V p) = Some (laidNode dark V p)).
  { unfold matchedNode. rewrite Hnorm. apply find_first.
    - eapply nth_error_In; eauto.
    - cbn [laidNode data]. rewrite nodeOf_path. apply str_eqb_refl.
    - intros n Hn E. apply layoutNodes_tree_In in Hn.
      destruct Hn as (q & Hq & ->).
      cbn [laidNode data] in E. rewrite nodeOf_path in E.
      apply str_eqb_eq in E. f_equal. now apply (pathOf_inj V). }
  assert (Hids : NoDup (map id L)).
  { subst L. rewrite (proj1 (layoutNodes_frame _ _)), createTree_ids.
    apply nodeIds_NoDup. }
  match goal with
  | |- context [handleSearch ?s] =>
      destruct (handleSearch_match s (laidNode dark V p))
        as (Hres & Hnodes & Hcmd)
  end.
  { cbn [setSearchPath st_searchPath]. rewrite Htrim, Et. discriminate. }
  { exact Hm. }
  cbn [setSearchPath st_nodes st_rfInstance] in Hnodes, Hcmd.
  rewrite Hres, Hnodes, Hcmd.
  assert (Hhl : In (setHighlighted true (laidNode dark V p))
                   (highlightedNodes
                      (map (fun n => setHighlighted
                                       (str_eqb (id n) (id (laidNode dark V p))) n)
                           L))).
  { unfold highlightedNodes. apply filter_In. split; [| reflexivity].
    apply in_map_iff. exists (laidNode dark V p).
    rewrite str_eqb_refl. split; [reflexivity |].
    eapply nth_error_In; eauto. }
  split; [reflexivity |]. split; [reflexivity |]. split; [| split].
  - rewrite nth_error_map, HinL. simpl. now rewrite str_eqb_refl.
  - pose proof (highlightedNodes_by_id L (id (laidNode dark V p)) Hids)
      as Hle.
    destruct (highlightedNodes _) as [|a [|b r]]; simpl in *;
      [tauto | | lia].
    destruct Hhl as [-> | []]. reflexivity.
  - intros rf Hrf Hget. rewrite Hrf, Hget. reflexivity.
Qed.

Lemma visualize_then_search_witness :
  sampleParse (st_jsonInput (stateWithInput (str "[null]")))
  = inl (JArray [JNull])
  /\ st_searchResult
       (fst (handleSearch
               (setSearchPath (pathOf (JArray [JNull]) [0])
                  (handleVisualize sampleParse sampleEngine
                     (stateWithInput (str "[null]"))))))
     = str "Match found!".
Proof.
  split; [reflexivity |].
  assert (H : In [0] (positions (JArray [JNull]))) by (simpl; auto).
  apply (visualize_then_search sampleParse sampleEngine
           (stateWithInput (str "[null]")) (JArray [JNull]) [0]
           eq_refl eq_refl eq_refl H eq_refl).
Defined.

(* ================================================================== *)
(** ** Further properties: normalization of the search string *)

Lemma trimStart_noLeadingWs s : noLeadingWs (trimStart s).
Proof.
  induction s as [|c s IH]; simpl; auto.
  destruct (isWhiteSpace c) eqn:E; simpl; auto.
Qed.

Lemma trimStart_fixed s : noLeadingWs s -> trimStart s = s.
Proof. destruct s as [|c s]; simpl; auto. now intros ->. Qed.

Lemma trimStart_suffix s : exists ws, s = ws ++ trimStart s.
Proof.
  induction s as [|c s (ws & IH)]; simpl; [now exists [] |].
  destruct (isWhiteSpace c); [| now exists []].
  exists (c :: ws). simpl. now rewrite <- IH.
Qed.

Lemma trimEnd_prefix s : exists ws, s = trimEnd s ++ ws.
Proof.
  unfold trimEnd. destruct (trimStart_suffix (rev s)) as (ws & E).
  exists (rev ws).
  rewrite <- rev_app_distr, <- E. symmetry. apply rev_involutive.
Qed.

Lemma trimEnd_noLeadingWs s : noLeadingWs s -> noLeadingWs (trimEnd s).
Proof.
  intros H. destruct (trimEnd_prefix s) as (ws & E).
  destruct (trimEnd s) as [|c t]; simpl; auto.
  rewrite E in H. exact H.
Qed.

Lemma trim_idem s : trim (trim s) = trim s.
Proof.
  unfold trim at 1.
  rewrite (trimStart_fixed (trim s)).
  - apply trim_idem_end.
  - apply trimEnd_noLeadingWs, trimStart_noLeadingWs.
Qed.

(** X19: the normalized search string always starts with ["$"], is not
    changed by trimming, and normalizing it again gives it back: a
    normalized path put into the search field is searched as it is. *)
Theorem normalizedPath_idempotent s :
  startsWith (normalizedPath s) (str "$") = true
  /\ trim (normalizedPath s) = normalizedPath s
  /\ normalizedPath (normalizedPath s) = normalizedPath s.
Proof.
  assert (H : startsWith (normalizedPath s) (str "$") = true
              /\ trim (normalizedPath s) = normalizedPath s).
  { unfold normalizedPath.
    destruct (startsWith (trim s) (str "$")) eqn:E.
    - split; [exact E | apply trim_idem].
    - split; [reflexivity |].
      destruct (trim s) as [|c t] eqn:Et; [reflexivity |].
      rewrite <- Et. apply trim_dollar_prefix; [congruence |].
      apply trim_idem_end. }
  destruct H as [Hd Ht]. split; [exact Hd | split; [exact Ht |]].
  unfold normalizedPath at 1. now rewrite Ht, Hd.
Qed.

(* ================================================================== *)
(** ** Further properties: edges in the layout *)

(** X20: in the layout of a tree every edge leads exactly one level
    down: the node of a position other than the root lies 150 below the
    node of the enclosing position. *)
Theorem layoutNodes_edges_descend dark V p i :
  In (p ++ [i]) (positions V) ->
  exists parent child,
    nth_error (layoutNodes (fst (createTree_default dark V))
                           (snd (createTree_default dark V)))
              (index_of V p) = Some parent
    /\ nth_error (layoutNodes (fst (createTree_default dark V))
                              (snd (createTree_default dark V)))
                 (index_of V (p ++ [i])) = Some child
    /\ In (newEdge (id parent) (id child)) (snd (createTree_default dark V))
    /\ (y (position child) == y (position parent) + 150)%Q.
Proof.
  intros Hc.
  assert (Hp : In p (positions V)).
  { apply positions_parent in Hc. now rewrite removelast_last in Hc. }
  exists (laidNode dark V p), (laidNode dark V (p ++ [i])).
  split; [now apply layoutNodes_tree |].
  split; [now apply layoutNodes_tree |].
  split.
  - rewrite createTree_edges. cbn [laidNode id]. rewrite !nodeOf_id.
    apply treeEdges_In. exists (p ++ [i]).
    unfold edgeAt. rewrite removelast_last.
    repeat split; try reflexivity; auto. now destruct p.
  - cbn [laidNode position levelPosition y].
    rewrite length_app, Nat.add_1_r.
    unfold natQ, Qeq; simpl. lia.
Qed.

Lemma layoutNodes_edges_descend_witness :
  In ([0] ++ [0]) (positions sampleNested)
  /\ exists parent child,
       nth_error (layoutNodes (fst (createTree_default true sampleNested))
                              (snd (createTree_default true sampleNested)))
                 (index_of sampleNested [0]) = Some parent
       /\ nth_error (layoutNodes (fst (createTree_default true sampleNested))
                                 (snd (createTree_default true sampleNested)))
                    (index_of sampleNested ([0] ++ [0])) = Some child
       /\ In (newEdge (id parent) (id child))
             (snd (createTree_default true sampleNested))
       /\ (y (position child) == y (position parent) + 150)%Q.
Proof.
  assert (H : In ([0] ++ [0]) (positions sampleNested)) by (simpl; auto).
  split; [exact H |].
  apply (layoutNodes_edges_descend true sampleNested [0] 0 H).
Defined.
